(** * TalkNet-ASD: the active-speaker pipeline of [talknet_asd/asd_pipeline.py]

    A shallow embedding of the pure parts of the pipeline driver: face
    detection post-filtering, greedy IOU track association, intersection over
    union, audio/video alignment and multi-scale scoring, score smoothing for
    the overlay, and the clean-up policy of [Pipeline].

    Conventions.
    - Python [int] is [Z].  A Python [float] is the rational [Q] it stands
      for; [==] on floats is [Qeq].  Rounding is round-half-to-even, as
      Python 3's [round] and [numpy.round] do.  In the alignment of
      [evaluate_network], which rounds float products to sample counts, every
      float operation is rounded to binary64 as IEEE 754 does ([Float.b64]).
    - Pixel coordinates of raw detections are integers (DeepFace reports
      [facial_area] in integer pixels); interpolated boxes are rationals.
    - A Python exception is a value of [exn]; code that can raise returns
      an [outcome].  [OutOfFuel] is not a Python outcome: it marks a loop of the
      model that ran out of its iteration budget, and is shown unreachable.
    - External collaborators (DeepFace, the TalkNet model, ffmpeg, the file
      system) are parameters or explicit inputs. *)

From Stdlib Require Import ZArith QArith Qround Qminmax Qpower Qabs Lia Lqa.
From Stdlib Require Floats.SpecFloat.
From stdpp Require Import base list gmap strings sets sorting.

Set Default Proof Using "Type".

(** ** Python primitives *)

Module Py.

Inductive exn : Type :=
| ZeroDivisionError
| ValueError
| IndexError
| Exception (msg : string).

Inductive outcome (A : Type) : Type :=
| Done (a : A)
| Raised (e : exn)
| OutOfFuel.
Arguments Done {A} a.
Arguments Raised {A} e.
Arguments OutOfFuel {A}.

Definition bind {A B : Type} (m : outcome A) (k : A → outcome B) : outcome B :=
  match m with
  | Done a => k a
  | Raised e => Raised e
  | OutOfFuel => OutOfFuel
  end.

#[global] Instance outcome_ret : MRet outcome := @Done.
#[global] Instance outcome_bind : MBind outcome := λ A B k m, bind m k.
#[global] Instance outcome_fmap : FMap outcome :=
  λ A B f m, bind m (λ a, Done (f a)).

(** [len(l)] as a Python int. *)
Definition len {A : Type} (l : list A) : Z := Z.of_nat (length l).

(** Normalisation of one slice bound against a sequence of [n] items:
    a negative bound counts from the end, and the result is clamped to
    [0 .. n]. *)
Definition slice_bound (n i : Z) : Z :=
  if (i <? 0)%Z then Z.max 0 (i + n) else Z.min i n.

(** [l[lo:hi]] *)
Definition slice {A : Type} (l : list A) (lo hi : Z) : list A :=
  let a := slice_bound (len l) lo in
  let b := slice_bound (len l) hi in
  take (Z.to_nat (b - a)) (drop (Z.to_nat a) l).

(** [l.remove(x)]: drops the first item that compares equal to [x]. *)
Fixpoint remove {A : Type} (eqb : A → A → bool) (x : A) (l : list A) : list A :=
  match l with
  | [] => []
  | y :: l' => if eqb y x then l' else y :: remove eqb x l'
  end.

(** [numpy.arange(a, b)] on integers. *)
Definition arange (a b : Z) : list Z := seqZ a (b - a).

Definition Qltb (x y : Q) : bool := negb (Qle_bool y x).

(** [round(q)]: nearest integer, ties to the even one. *)
Definition round (q : Q) : Z :=
  let f := Qfloor q in
  match (q - inject_Z f ?= 1 # 2)%Q with
  | Lt => f
  | Gt => (f + 1)%Z
  | Eq => if Z.even f then f else (f + 1)%Z
  end.

(** [math.ceil(q)] *)
Definition ceil (q : Q) : Z := Qceiling q.

(** [a / float(b)] on Python numbers. *)
Definition div (a b : Z) : outcome Q :=
  if (b =? 0)%Z then Raised ZeroDivisionError
  else Done (inject_Z a / inject_Z b)%Q.

Definition Qsum (l : list Q) : Q := foldr Qplus 0%Q l.

(** [numpy.mean(l)]; [None] stands for the NaN of an empty input. *)
Definition mean (l : list Q) : option Q :=
  match l with
  | [] => None
  | _ => Some (Qsum l / inject_Z (len l))%Q
  end.

(** [numpy.round(q, 1)] *)
Definition round1 (q : Q) : Q := (inject_Z (round (q * 10)) / 10)%Q.

End Py.
Import Py.

(** ** Binary64 floats

    A finite float is the rational it stands for.  [b64 q] is the float
    nearest to [q], ties to the even significand: 53 significant bits, the
    exponent of the last place no less than -1074.  The sample counts of
    [evaluate_network] are list lengths, below [2^63], so the floats met
    there are far below the overflow threshold [2^1024], which is left
    out. *)

Module Float.

Local Open Scope Z_scope.

(** The exponent [e] with [2^e <= q < 2^(e+1)], for a positive [q]. *)
Definition exponent (q : Q) : Z :=
  let g := Z.log2 (Qnum q) - Z.log2 (Z.pos (Qden q)) in
  if Qle_bool (2 ^ g) q then g else g - 1.

Definition b64 (q : Q) : Q :=
  if Qeq_bool q 0 then 0%Q
  else
    let e := Z.max (exponent (Qabs q) - 52) (-1074) in
    (inject_Z (Py.round (q / 2 ^ e)) * 2 ^ e)%Q.

(** [float(n)], the conversion that [x * n] and [x / n] apply to an int
    operand. *)
Definition of_int (n : Z) : Q := b64 (inject_Z n).

(** [a / b] on two ints: the quotient, correctly rounded. *)
Definition truediv (a b : Z) : Q := b64 (inject_Z a / inject_Z b).

(** [x * y] and [x / y] on two floats. *)
Definition mul (x y : Q) : Q := b64 (x * y).
Definition div (x y : Q) : Q := b64 (x / y).

(** The unit round-off [2^-53]. *)
Definition u : Q := 1 # 9007199254740992.

End Float.

(** The same operations in the Standard Library's specification of IEEE 754
    arithmetic, at the precision and exponent range of binary64; [b64] is
    checked against it below. *)

Module Ieee.

Local Open Scope Z_scope.

Definition of_int (n : Z) : SpecFloat.spec_float :=
  SpecFloat.binary_normalize 53 1024 n 0 false.
Definition mul : SpecFloat.spec_float → SpecFloat.spec_float → SpecFloat.spec_float :=
  SpecFloat.SFmul 53 1024.
Definition div : SpecFloat.spec_float → SpecFloat.spec_float → SpecFloat.spec_float :=
  SpecFloat.SFdiv 53 1024.

(** The float [x] is finite and stands for the rational [q]. *)
Definition denotes (x : SpecFloat.spec_float) (q : Q) : bool :=
  match x with
  | SpecFloat.S754_zero _ => Qeq_bool q 0
  | SpecFloat.S754_finite s m e =>
      Qeq_bool q (inject_Z (if s then Z.neg m else Z.pos m) * 2 ^ e)
  | _ => false
  end.

(** The float expressions of the alignment and of the batch sizes on [n]
    samples, both ways. *)
Definition agree_on (n : Z) : bool :=
  let x := div (of_int n) (of_int 100) in
  let q := Float.truediv n 100 in
  denotes x q
  && denotes (div (of_int n) (of_int 25)) (Float.truediv n 25)
  && denotes (mul x (of_int 100)) (Float.mul q (Float.of_int 100))
  && denotes (mul x (of_int 25)) (Float.mul q (Float.of_int 25))
  && forallb (λ k, denotes (div x (of_int k)) (Float.div q (Float.of_int k)))
             [1; 2; 3; 4; 5; 6].

End Ieee.

(** ** Boxes and detections *)

(** A box [[x0, y0, x1, y1]] in integer pixels. *)
Record box : Type := Box { bx0 : Z; by0 : Z; bx1 : Z; by1 : Z }.

Definition box_eqb (a b : box) : bool :=
  (bx0 a =? bx0 b)%Z && (by0 a =? by0 b)%Z &&
  (bx1 a =? bx1 b)%Z && (by1 a =? by1 b)%Z.

(** The dict [{"frame": fidx, "bbox": bbox, "conf": confidence}]. *)
Record detection : Type := Det { frame : Z; bbox : box; conf : Q }.

(** [==] on two such dicts. *)
Definition detection_eqb (a b : detection) : bool :=
  (frame a =? frame b)%Z && box_eqb (bbox a) (bbox b) && Qeq_bool (conf a) (conf b).

(** One entry of [DeepFace.extract_faces]: [facial_area] is the dict under
    that key (empty when the key is absent), [confidence] the value under
    ["confidence"] when present. *)
Record face : Type := Face { facial_area : gmap string Z; confidence : option Q }.

(** An interpolated box, one row of [bboxesI]. *)
Record qbox : Type := QBox { qx0 : Q; qy0 : Q; qx1 : Q; qy1 : Q }.

(** An emitted track, the dict [{"frame": frameI, "bbox": bboxesI,
    "confidence": confidencesI}]. *)
Module Track.
Record t : Type := Make { frame : list Z; bbox : list qbox; confidence : list Q }.
End Track.

(** A shot [(start, end)] of the scene list, by the [frame_num] of its two
    timecodes. *)
Record shot : Type := Shot { start_frame : Z; end_frame : Z }.

(** What [DeepFace.extract_faces] does on one frame file: it returns a list
    of faces or raises. *)
Inductive extraction : Type :=
| Extracted (faces : list face)
| Throws (e : exn).

(** The configuration attributes read from [self.args]. *)
Record args : Type := Args {
  min_track : Z;
  num_failed_det : Z;
  min_face_size : Z
}.

(** ** FaceProcessor *)

Module FaceProcessor.

Local Open Scope Z_scope.

(** [bb_intersection_over_union(boxA, boxB, evalCol)] *)
Definition interArea (boxA boxB : box) : Z :=
  let xA := Z.max (bx0 boxA) (bx0 boxB) in
  let yA := Z.max (by0 boxA) (by0 boxB) in
  let xB := Z.min (bx1 boxA) (bx1 boxB) in
  let yB := Z.min (by1 boxA) (by1 boxB) in
  Z.max 0 (xB - xA) * Z.max 0 (yB - yA).

Definition boxArea (b : box) : Z := (bx1 b - bx0 b) * (by1 b - by0 b).

Definition bb_intersection_over_union (boxA boxB : box) (evalCol : bool) : outcome Q :=
  let interArea := interArea boxA boxB in
  let boxAArea := boxArea boxA in
  let boxBArea := boxArea boxB in
  if evalCol then Py.div interArea boxAArea
  else Py.div interArea (boxAArea + boxBArea - interArea).

(** *** detect_faces *)

(** The body of [for face in faces]: [None] is a [continue]. *)
Definition face_detection (fidx : Z) (f : face) : option detection :=
  let facial_area := facial_area f in
  match facial_area !! "x", facial_area !! "y",
        facial_area !! "w", facial_area !! "h" with
  | Some x, Some y, Some w, Some h =>
      if Qltb (default 0%Q (confidence f)) (1 # 2) then None
      else if (w <=? 0) || (h <=? 0) then None
      else Some (Det fidx (Box x y (x + w) (y + h)) (default 0%Q (confidence f)))
  | _, _, _, _ => None
  end.

(** The loop [for fidx, fname in enumerate(pbar)], given for each frame
    file what [DeepFace.extract_faces] does on it.  On an exception the
    handler prints and executes [continue], which leaves the iteration
    before [detections.append(frame_detections)]. *)
Fixpoint detect_faces_from (fidx : Z) (extracted : list extraction)
  : list (list detection) :=
  match extracted with
  | [] => []
  | Extracted faces :: rest =>
      omap (face_detection fidx) faces :: detect_faces_from (fidx + 1) rest
  | Throws _ :: rest => detect_faces_from (fidx + 1) rest
  end.

Definition detect_faces (extracted : list extraction) : list (list detection) :=
  detect_faces_from 0 extracted.

(** *** track_shot *)

Definition iouThres : Q := 1 # 2.

Section TrackShot.

Variable self_args : args.

(** The loop [for face in frameFaces].  The list iterator holds an index
    [i] into the list object, which the body shortens in place with
    [frameFaces.remove(face)]; each round reads [frameFaces[i]] and
    advances [i], and the loop ends when [i] is past the end. *)
Fixpoint for_face (fuel : nat) (i : nat) (track frameFaces : list detection)
  : outcome (list detection * list detection) :=
  match frameFaces !! i with
  | None => Done (track, frameFaces)
  | Some face =>
      match fuel with
      | O => OutOfFuel
      | S fuel =>
          match last track with
          | None =>
              for_face fuel (S i) (track ++ [face])
                       (Py.remove detection_eqb face frameFaces)
          | Some prev =>
              if frame face - frame prev <=? num_failed_det self_args then
                iou ← bb_intersection_over_union (bbox face) (bbox prev) false;
                if Qltb iouThres iou then
                  for_face fuel (S i) (track ++ [face])
                           (Py.remove detection_eqb face frameFaces)
                else for_face fuel (S i) track frameFaces
              else Done (track, frameFaces)
          end
      end
  end.

(** The loop [for frameFaces in sceneFaces]; the second component is the
    content of the inner lists after the pass. *)
Fixpoint for_frameFaces (track : list detection) (sceneFaces : list (list detection))
  : outcome (list detection * list (list detection)) :=
  match sceneFaces with
  | [] => Done (track, [])
  | frameFaces :: rest =>
      '(track, frameFaces) ← for_face (length frameFaces) 0 track frameFaces;
      '(track, rest) ← for_frameFaces track rest;
      Done (track, frameFaces :: rest)
  end.

(** [scipy.interpolate.interp1d(x, y)] with the default linear kind.  The
    constructor sorts the sample points by [x], keeping the order of equal
    abscissae. *)
Fixpoint insert_point (p : Z * Q) (l : list (Z * Q)) : list (Z * Q) :=
  match l with
  | [] => [p]
  | q :: l' => if p.1 <=? q.1 then p :: l else q :: insert_point p l'
  end.

Definition sort_points (l : list (Z * Q)) : list (Z * Q) := foldr insert_point [] l.

(** Evaluation at one abscissa on sorted points: the segment is the one that
    starts at the last sample at or before [x]; a query that hits a sample
    returns its ordinate; a query outside the samples is refused ([None]). *)
Fixpoint interp_at (pts : list (Z * Q)) (x : Z) : option Q :=
  match pts with
  | [] => None
  | (xa, ya) :: rest =>
      match rest with
      | [] => if x =? xa then Some ya else None
      | (xb, yb) :: _ =>
          if xb <=? x then interp_at rest x
          else if x <? xa then None
          else if x =? xa then Some ya
          else Some ((yb - ya) / inject_Z (xb - xa) * inject_Z (x - xa) + ya)%Q
      end
  end.

Definition interp1d (x : list Z) (y : list Q) (x_new : list Z) : outcome (list Q) :=
  let pts := sort_points (zip x y) in
  mapM (λ v, match interp_at pts v with
             | Some r => Done r
             | None => Raised ValueError
             end) x_new.

(** [numpy.stack(bboxesI, axis=1)] on the four interpolated columns. *)
Fixpoint stack4 (c0 c1 c2 c3 : list Q) : list qbox :=
  match c0, c1, c2, c3 with
  | a :: c0, b :: c1, c :: c2, d :: c3 => QBox a b c d :: stack4 c0 c1 c2 c3
  | _, _, _, _ => []
  end.

(** [max(numpy.mean(...), numpy.mean(...)) > min_face_size]; a NaN mean
    makes the comparison false. *)
Definition big_enough (bboxesI : list qbox) : bool :=
  match Py.mean ((λ b, qx1 b - qx0 b)%Q <$> bboxesI),
        Py.mean ((λ b, qy1 b - qy0 b)%Q <$> bboxesI) with
  | Some w, Some h => Qltb (inject_Z (min_face_size self_args)) (Qmax w h)
  | _, _ => false
  end.

(** The branch [elif len(track) > self.args.min_track] of [track_shot]:
    [Some] is the dict appended to [tracks], [None] a track dropped by the
    size test. *)
Definition interpolate_track (track : list detection) : outcome (option Track.t) :=
  let frameNum := frame <$> track in
  match head frameNum, last frameNum with
  | Some first, Some final =>
      let frameI := Py.arange first (final + 1) in
      let column (f : box → Z) := interp1d frameNum ((inject_Z ∘ f ∘ bbox) <$> track) frameI in
      c0 ← column bx0;
      c1 ← column by0;
      c2 ← column bx1;
      c3 ← column by1;
      let bboxesI := stack4 c0 c1 c2 c3 in
      confidencesI ← interp1d frameNum (conf <$> track) frameI;
      if big_enough bboxesI
      then Done (Some (Track.Make frameI bboxesI confidencesI))
      else Done None
  | _, _ => Raised IndexError
  end.

(** The loop [while True] of [track_shot], one round per candidate track. *)
Fixpoint while_true (fuel : nat) (sceneFaces : list (list detection)) (tracks : list Track.t)
  : outcome (list Track.t * list (list detection)) :=
  match fuel with
  | O => OutOfFuel
  | S fuel =>
      '(track, sceneFaces) ← for_frameFaces [] sceneFaces;
      match track with
      | [] => Done (tracks, sceneFaces)
      | _ :: _ =>
          if min_track self_args <? Py.len track then
            emitted ← interpolate_track track;
            while_true fuel sceneFaces (tracks ++ option_list emitted)
          else while_true fuel sceneFaces tracks
      end
  end.

(** [track_shot(sceneFaces)]: the tracks returned, and what is left in the
    per-frame lists, which the caller's [face_detections] shares. *)
Definition track_shot (sceneFaces : list (list detection))
  : outcome (list Track.t * list (list detection)) :=
  while_true (S (length (concat sceneFaces))) sceneFaces [].

(** *** track_faces *)

(** The lists of [face_detections[lo:hi]] put back after [track_shot] has
    shortened them. *)
Definition write_back (face_detections : list (list detection)) (lo : Z)
    (sceneFaces : list (list detection)) : list (list detection) :=
  let a := Z.to_nat (Py.slice_bound (Py.len face_detections) lo) in
  take a face_detections ++ sceneFaces ++ drop (a + length sceneFaces) face_detections.

Fixpoint track_faces (scenes : list shot) (face_detections : list (list detection))
  : outcome (list Track.t * list (list detection)) :=
  match scenes with
  | [] => Done ([], face_detections)
  | shot :: scenes =>
      if min_track self_args <=? end_frame shot - start_frame shot then
        '(tracks, sceneFaces) ←
          track_shot (Py.slice face_detections (start_frame shot) (end_frame shot + 1));
        '(all_tracks, face_detections) ←
          track_faces scenes (write_back face_detections (start_frame shot) sceneFaces);
        Done (tracks ++ all_tracks, face_detections)
      else track_faces scenes face_detections
  end.

End TrackShot.

End FaceProcessor.

(** ** ActiveSpeakerDetector *)

Module ActiveSpeakerDetector.

Local Open Scope Z_scope.

(** [duration_set = {1, 1, 1, 2, 2, 2, 3, 3, 4, 5, 6}]: the braces make a
    Python [set]. *)
Definition duration_set : gset Z := {[ 1; 1; 1; 2; 2; 2; 3; 3; 4; 5; 6 ]}.

(** The sums of the columns of a stack of rows of length [n]. *)
Definition column_sums (n : nat) (rows : list (list Q)) : list Q :=
  foldr (zip_with Qplus) (replicate n 0%Q) rows.

(** [numpy.mean(numpy.array(all_score), axis=0)]: the rows must have one
    length; the column sums are divided by the number of rows. *)
Definition mean_axis0 (all_score : list (list Q)) : outcome (list Q) :=
  match all_score with
  | [] => Raised ValueError
  | row :: rows =>
      if forallb (λ r, (length r =? length row)%nat) rows then
        Done ((λ s, s / inject_Z (Py.len all_score))%Q <$>
              column_sums (length row) all_score)
      else Raised ValueError
  end.

Section Model.

(** Rows of the MFCC matrix, grey 112x112 crops, and what the four stages of
    the TalkNet model exchange. *)
Context {A V EmbedA EmbedV Out : Type}.
Variable forward_audio_frontend : list A → EmbedA.
Variable forward_visual_frontend : list V → EmbedV.
Variable forward_cross_attention : EmbedA → EmbedV → EmbedA * EmbedV.
Variable forward_audio_visual_backend : EmbedA → EmbedV → Out.
Variable lossAV_forward : Out → list Q.

(** The alignment of the two feature sequences (lines 511-516), in the
    floats of the code: [shape[0] / 100] is an int by an int, [length * 100]
    a float by an int. *)
Definition align (audio_feature : list A) (video_feature : list V) : Q * list A * list V :=
  let length := Qmin (Float.truediv (Py.len audio_feature) 100)
                     (Float.truediv (Py.len video_feature) 25) in
  (length,
   Py.slice audio_feature 0 (Py.round (Float.mul length (Float.of_int 100))),
   Py.slice video_feature 0 (Py.round (Float.mul length (Float.of_int 25)))).

(** One forward path of the model on a window. *)
Definition score_window (input_a : list A) (input_v : list V) : list Q :=
  let embed_a := forward_audio_frontend input_a in
  let embed_v := forward_visual_frontend input_v in
  let '(embed_a, embed_v) := forward_cross_attention embed_a embed_v in
  lossAV_forward (forward_audio_visual_backend embed_a embed_v).

(** The body of [for duration in duration_set]: the list [scores]. *)
Definition duration_scores (length : Q) (audio_feature : list A) (video_feature : list V)
    (duration : Z) : list Q :=
  let batch_size := Py.ceil (Float.div length (Float.of_int duration)) in
  concat ((λ i, score_window
                  (Py.slice audio_feature (i * duration * 100) ((i + 1) * duration * 100))
                  (Py.slice video_feature (i * duration * 25) ((i + 1) * duration * 25)))
          <$> Py.arange 0 batch_size).

(** The scores of one crop file, with the durations iterated over as a
    parameter. *)
Definition evaluate_over (durations : list Z) (audio_feature : list A) (video_feature : list V)
  : outcome (list Q) :=
  let '(length, audio_feature, video_feature) := align audio_feature video_feature in
  let all_score := duration_scores length audio_feature video_feature <$> durations in
  all_score ← mean_axis0 all_score;
  Done (Py.round1 <$> (all_score : list Q)).

(** One round of [for file in files] of [evaluate_network]. *)
Definition evaluate_file (audio_feature : list A) (video_feature : list V) : outcome (list Q) :=
  evaluate_over (elements duration_set) audio_feature video_feature.

Definition evaluate_network (files : list (list A * list V)) : outcome (list (list Q)) :=
  mapM (λ file, evaluate_file file.1 file.2) files.

(** The ensemble as the specification words it (section 4.3): one pass per
    element of the multiset of durations.  It is compared with
    [evaluate_file] below. *)
Definition spec_duration_multiset : list Z := [1; 1; 1; 2; 2; 2; 3; 3; 4; 5; 6].

Definition spec_evaluate_file (audio_feature : list A) (video_feature : list V)
  : outcome (list Q) :=
  evaluate_over spec_duration_multiset audio_feature video_feature.

End Model.

End ActiveSpeakerDetector.

(** ** visualization *)

Module Visualization.

Local Open Scope Z_scope.

(** Lines 52-55: the slice of [score] around [fidx] and its mean ([None] is
    the NaN of an empty slice). *)
Definition window (score : list Q) (fidx : Z) : list Q :=
  Py.slice score (Z.max (fidx - 2) 0) (Z.min (fidx + 3) (Py.len score - 1)).

Definition smoothed (score : list Q) (fidx : Z) : option Q := Py.mean (window score fidx).

(** The loop [for fidx, frame in enumerate(track frames)] for the track
    [tidx]: the frame each entry is appended to, the track index and the
    displayed score. *)
Definition track_overlays (tidx : nat) (frames : list Z) (score : list Q)
  : list (Z * (nat * option Q)) :=
  imap (λ fidx frame, (frame, (tidx, smoothed score (Z.of_nat fidx)))) frames.

End Visualization.

(** ** The association rule as the specification words it

    Section 4.1: every detection of a frame's candidate pool is examined in
    turn; it seeds an empty track, or joins the track when it is within the
    gap and overlaps the last box by more than the threshold, and a gap that
    has grown too large ends the scan of the frame.  It is compared with
    [FaceProcessor.for_face] below. *)

Module TrackBuilderSpec.

Local Open Scope Z_scope.

Section Spec.

Variable maxGapFrames : Z.

Fixpoint scan_candidates (track candidates pool : list detection)
  : outcome (list detection * list detection) :=
  match candidates with
  | [] => Done (track, pool)
  | face :: candidates =>
      match last track with
      | None =>
          scan_candidates (track ++ [face]) candidates (Py.remove detection_eqb face pool)
      | Some prev =>
          if frame face - frame prev <=? maxGapFrames then
            iou ← FaceProcessor.bb_intersection_over_union (bbox face) (bbox prev) false;
            if Qltb FaceProcessor.iouThres iou then
              scan_candidates (track ++ [face]) candidates (Py.remove detection_eqb face pool)
            else scan_candidates track candidates pool
          else Done (track, pool)
      end
  end.

Fixpoint scan_frames (track : list detection) (sceneFaces : list (list detection))
  : outcome (list detection * list (list detection)) :=
  match sceneFaces with
  | [] => Done (track, [])
  | frameFaces :: rest =>
      '(track, frameFaces) ← scan_candidates track frameFaces frameFaces;
      '(track, rest) ← scan_frames track rest;
      Done (track, frameFaces :: rest)
  end.

End Spec.

End TrackBuilderSpec.

(** ** Pipeline *)

Module Pipeline.

(** The file system is the set of paths that exist, a path being the list of
    its components; a directory exists when something at or below it does. *)
Definition exists_ (p : list string) (fs : gset (list string)) : bool :=
  bool_decide (set_Exists (λ q, p `prefix_of` q) fs).

(** [shutil.rmtree(p)] *)
Definition rmtree (p : list string) (fs : gset (list string)) : gset (list string) :=
  filter (λ q, ¬ p `prefix_of` q) fs.

(** [p.mkdir(parents=True, exist_ok=True)] *)
Definition mkdir (p : list string) (fs : gset (list string)) : gset (list string) :=
  {[ p ]} ∪ fs.

(** Code that acts on the file system and returns or raises. *)
Definition io (A : Type) : Type :=
  gset (list string) → (exn + A) * gset (list string).

Definition ret {A : Type} (a : A) : io A := λ fs, (inr a, fs).

Definition raise {A : Type} (e : exn) : io A := λ fs, (inl e, fs).

Definition bind {A B : Type} (m : io A) (k : A → io B) : io B :=
  λ fs, match m fs with
        | (inr a, fs') => k a fs'
        | (inl e, fs') => (inl e, fs')
        end.

(** [try: m  except Exception: handler] *)
Definition try_except {A : Type} (m : io A) (handler : exn → io A) : io A :=
  λ fs, match m fs with
        | (inl e, fs') => handler e fs'
        | (inr a, fs') => (inr a, fs')
        end.

Notation "x <- m ;; k" := (bind m (λ x, k))
  (at level 100, m at next level, right associativity, only parsing).
Notation "m ;;; k" := (bind m (λ _, k))
  (at level 100, right associativity, only parsing).

Section Run.

(** What the stages exchange, and the stages themselves: the methods of
    [VideoPreprocessor], [FaceProcessor] and [ActiveSpeakerDetector] with
    their effect on the working directory, [visualization], and the
    collaborators called by [__init__]. *)
Context {Scenes Faces Tracks VideoTracks Scores Device Weights Detector : Type}.

Variable save_path : list string.

Variable extract_video extract_audio extract_frames : io unit.
Variable scenes_detect : io Scenes.
Variable detect_faces : io Faces.
Variable track_faces : Scenes → Faces → io Tracks.
Variable video_tracks : Tracks → io VideoTracks.
Variable face_processor_save_results : VideoTracks → io unit.
Variable evaluate_network : io Scores.
Variable speaker_detector_save_results : Scores → io unit.
Variable visualization : Scores → VideoTracks → io unit.

Variable resolve_device : io Device.
Variable hf_hub_download : io Weights.
Variable new_ActiveSpeakerDetector : Weights → io Detector.

Definition _cleanup_cache : io unit :=
  λ fs, if exists_ save_path fs then (inr (), rmtree save_path fs) else (inr (), fs).

Definition _setup_paths : io unit :=
  _cleanup_cache ;;;
  (λ fs, (inr (), mkdir (save_path ++ ["pycrop"])
                   (mkdir (save_path ++ ["pywork"])
                   (mkdir (save_path ++ ["pyframes"])
                   (mkdir (save_path ++ ["pyavi"]) fs))))).

(** The [try] block of [__init__] (lines 614-617); the first two
    constructors only store [args]. *)
Definition construct (pretrain_model : Weights) : io Detector :=
  new_ActiveSpeakerDetector pretrain_model.

Definition __init__ : io Detector :=
  _ <- resolve_device ;;
  pretrain_model <- hf_hub_download ;;
  _setup_paths ;;;
  try_except (construct pretrain_model)
             (λ e, _cleanup_cache ;;; raise e).

(** The [try] block of [run] (lines 645-663). *)
Definition stages : io unit :=
  extract_video ;;;
  extract_audio ;;;
  extract_frames ;;;
  scenes <- scenes_detect ;;
  faces <- detect_faces ;;
  all_tracks <- track_faces scenes faces ;;
  video_tracks <- video_tracks all_tracks ;;
  face_processor_save_results video_tracks ;;;
  scores <- evaluate_network ;;
  speaker_detector_save_results scores ;;;
  visualization scores video_tracks.

Definition run : io unit :=
  try_except stages (λ e, _cleanup_cache ;;; raise e).

End Run.

End Pipeline.

(** ** crop_video *)

Module CropVideo.




(** Lines 442-443: the bounds, in seconds, of the audio cut for a track;
    [track["frame"][0]] raises on a track without frames. *)
Definition audio_span (t : Track.t) : outcome (Q * Q) :=
  match head (Track.frame t), last (Track.frame t) with
  | Some first, Some final =>
      Done (inject_Z first / 25, inject_Z (final + 1) / 25)%Q
  | _, _ => Raised IndexError
  end.

End CropVideo.

(** * Vocabulary of the statements *)

Import FaceProcessor.

(** A box of positive area: its corners are in order on both axes. *)
Definition positive_area (b : box) : Prop := (bx0 b < bx1 b)%Z ∧ (by0 b < by1 b)%Z.

(** Two boxes whose interiors do not meet. *)
Definition non_overlapping (a b : box) : Prop :=
  (bx1 a ≤ bx0 b ∨ bx1 b ≤ bx0 a ∨ by1 a ≤ by0 b ∨ by1 b ≤ by0 a)%Z.

(** What [len(detections)] is: the frames on which the extraction did not
    raise. *)
Definition extracted_ok (x : extraction) : bool :=
  match x with Extracted _ => true | Throws _ => false end.

Definition sample_face (x y w h : Z) (c : Q) : face :=
  Face (list_to_map [("x", x); ("y", y); ("w", w); ("h", h)]) (Some c).

(** The length of a shot as the guard of [track_faces] reads it: the
    difference of the frame numbers of its two timecodes.  With the end
    frame counted in, as the slice [start : end + 1] does, the shot has one
    frame more. *)
Definition shot_length (s : shot) : Z := end_frame s - start_frame s.

Definition shot_frames (s : shot) : Z := shot_length s + 1.

Definition still_face (f : Z) : detection := Det f (Box 0 0 10 10) (9 # 10).

(** [face] joins a track whose last detection is [prev]: the IOU test of
    line 338. *)
Definition joins (face prev : detection) : bool :=
  match bb_intersection_over_union (bbox face) (bbox prev) false with
  | Done iou => Qltb iouThres iou
  | _ => false
  end.

(** The run of the loop [for face in frameFaces] as a relation: from the
    iterator index, the track and the list, to the track and the list at
    the end of the loop. *)
Inductive for_face_run (cfg : args) :
    nat → list detection → list detection → list detection * list detection → Prop :=
| run_exhausted i track frameFaces :
    frameFaces !! i = None →
    for_face_run cfg i track frameFaces (track, frameFaces)
| run_seed i track frameFaces face r :
    frameFaces !! i = Some face →
    last track = None →
    for_face_run cfg (S i) (track ++ [face]) (Py.remove detection_eqb face frameFaces) r →
    for_face_run cfg i track frameFaces r
| run_join i track frameFaces face prev r :
    frameFaces !! i = Some face →
    last track = Some prev →
    (frame face - frame prev ≤ num_failed_det cfg)%Z →
    joins face prev = true →
    for_face_run cfg (S i) (track ++ [face]) (Py.remove detection_eqb face frameFaces) r →
    for_face_run cfg i track frameFaces r
| run_pass i track frameFaces face prev r :
    frameFaces !! i = Some face →
    last track = Some prev →
    (frame face - frame prev ≤ num_failed_det cfg)%Z →
    joins face prev = false →
    for_face_run cfg (S i) track frameFaces r →
    for_face_run cfg i track frameFaces r
| run_break i track frameFaces face prev :
    frameFaces !! i = Some face →
    last track = Some prev →
    (num_failed_det cfg < frame face - frame prev)%Z →
    for_face_run cfg i track frameFaces (track, frameFaces).

(** The per-frame lists of a shot that starts at frame [base]: the list at
    position [k] holds detections of frame [base + k], as [detect_faces]
    numbers them. *)
Definition frame_indexed (base : Z) (sceneFaces : list (list detection)) : Prop :=
  ∀ (k : nat) frameFaces d,
    sceneFaces !! k = Some frameFaces → d ∈ frameFaces → frame d = (base + Z.of_nat k)%Z.

(** No two detections of one frame overlap by more than the threshold. *)
Definition faces_apart (frameFaces : list detection) : Prop :=
  ∀ (i j : nat) a b,
    i ≠ j → frameFaces !! i = Some a → frameFaces !! j = Some b → joins a b = false.

(** The frames of a candidate track go strictly up. *)
Definition later (a b : detection) : Prop := (frame a < frame b)%Z.


(** Every detection of a candidate but the first passed the two tests of the
    association against its predecessor: it lies within [num_failed_det]
    frames of it and overlaps it by more than the threshold. *)
Definition linked (cfg : args) (track : list detection) : Prop :=
  ∀ (i : nat) a b,
    track !! i = Some a → track !! S i = Some b →
    (frame b - frame a ≤ num_failed_det cfg)%Z ∧ joins b a = true.

(** Per-frame lists in which every box has positive width and height. *)
Definition sound_boxes (sceneFaces : list (list detection)) : Prop :=
  Forall (Forall (λ d, positive_area (bbox d))) sceneFaces.

(** * Properties *)

(** ** Intersection over union *)

Section Iou.

Local Open Scope Z_scope.

Lemma interArea_comm a b : interArea a b = interArea b a.
Proof.
  unfold interArea; cbn zeta.
  by rewrite (Z.max_comm (bx0 a)), (Z.max_comm (by0 a)),
             (Z.min_comm (bx1 a)), (Z.min_comm (by1 a)).
Qed.

Lemma interArea_nonneg a b : 0 ≤ interArea a b.
Proof. unfold interArea; cbn zeta. apply Z.mul_nonneg_nonneg; lia. Qed.

Lemma boxArea_pos b : positive_area b → 0 < boxArea b.
Proof. intros [??]. unfold boxArea. nia. Qed.

Lemma interArea_le_l a b : positive_area a → interArea a b ≤ boxArea a.
Proof.
  intros [Hx Hy]. unfold interArea, boxArea; cbn zeta.
  apply Z.mul_le_mono_nonneg; lia.
Qed.

Lemma interArea_le_r a b : positive_area b → interArea a b ≤ boxArea b.
Proof. rewrite interArea_comm. apply interArea_le_l. Qed.

Lemma interArea_self a : positive_area a → interArea a a = boxArea a.
Proof.
  intros [Hx Hy]. unfold interArea, boxArea; cbn zeta.
  rewrite !Z.max_id, !Z.min_id. f_equal; lia.
Qed.

Lemma interArea_disjoint a b : non_overlapping a b → interArea a b = 0.
Proof.
  intros H. unfold interArea; cbn zeta.
  destruct H as [H|[H|[H|H]]].
  1,2: replace (Z.max 0 (Z.min (bx1 a) (bx1 b) - Z.max (bx0 a) (bx0 b))) with 0 by lia; lia.
  all: replace (Z.max 0 (Z.min (by1 a) (by1 b) - Z.max (by0 a) (by0 b))) with 0 by lia; lia.
Qed.

Lemma union_pos a b :
  positive_area a → positive_area b → 0 < boxArea a + boxArea b - interArea a b.
Proof.
  intros Ha Hb. pose proof (interArea_le_l a b Ha). pose proof (boxArea_pos b Hb). lia.
Qed.

Lemma div_Done a b : b ≠ 0 → Py.div a b = Done (inject_Z a / inject_Z b)%Q.
Proof. intros H. unfold Py.div. by rewrite (proj2 (Z.eqb_neq b 0) H). Qed.

Lemma Qdiv_self_Z a : a ≠ 0 → (inject_Z a / inject_Z a == 1)%Q.
Proof.
  intros H. apply Qmult_inv_r. intros E.
  apply H. unfold Qeq in E. cbn in E. lia.
Qed.

Lemma Qdiv_zero_Z b : (inject_Z 0 / inject_Z b == 0)%Q.
Proof. unfold Qdiv. apply Qmult_0_l. Qed.

(** C6. For boxes of positive area the default IOU is symmetric, is 1 on a
    box and itself, and is 0 on boxes that do not overlap; with [evalCol] the
    result is the intersection area divided by the area of box A alone. *)
Theorem iou_symmetric_unit_disjoint (A B : box) :
  positive_area A → positive_area B →
  bb_intersection_over_union A B false = bb_intersection_over_union B A false
  ∧ (∃ v, bb_intersection_over_union A A false = Done v ∧ (v == 1)%Q)
  ∧ (non_overlapping A B →
     ∃ v, bb_intersection_over_union A B false = Done v ∧ (v == 0)%Q)
  ∧ bb_intersection_over_union A B true
    = Done (inject_Z (interArea A B) / inject_Z (boxArea A))%Q.
Proof.
  intros HA HB. unfold bb_intersection_over_union; cbn zeta.
  pose proof (boxArea_pos A HA) as HpA.
  pose proof (union_pos A B HA HB) as HU.
  repeat split.
  - rewrite (interArea_comm B A). f_equal. lia.
  - rewrite (interArea_self A HA).
    replace (boxArea A + boxArea A - boxArea A) with (boxArea A) by lia.
    rewrite div_Done by lia. eexists; split; [done|]. apply Qdiv_self_Z. lia.
  - intros Hd. rewrite (interArea_disjoint A B Hd).
    rewrite div_Done by (rewrite (interArea_disjoint A B Hd) in HU; lia).
    eexists; split; [done|]. apply Qdiv_zero_Z.
  - apply div_Done. lia.
Qed.

Lemma iou_symmetric_unit_disjoint_witness :
  let A := Box 0 0 10 10 in
  let B := Box 20 0 30 10 in
  bb_intersection_over_union A B false = bb_intersection_over_union B A false
  ∧ (∃ v, bb_intersection_over_union A A false = Done v ∧ (v == 1)%Q)
  ∧ (non_overlapping A B →
     ∃ v, bb_intersection_over_union A B false = Done v ∧ (v == 0)%Q)
  ∧ bb_intersection_over_union A B true
    = Done (inject_Z (interArea A B) / inject_Z (boxArea A))%Q.
Proof.
  intros A B. apply (iou_symmetric_unit_disjoint A B); split; cbn; lia.
Defined.

End Iou.

(** ** Face detection *)

Section DetectFaces.

Local Open Scope Z_scope.

Lemma Qltb_false x y : Qltb x y = false → (y <= x)%Q.
Proof.
  unfold Qltb. intros H. apply Qle_bool_iff.
  by destruct (Qle_bool y x).
Qed.

Lemma Qltb_true x y : Qltb x y = true ↔ (x < y)%Q.
Proof.
  unfold Qltb. split.
  - intros H. apply Qnot_le_lt. intros Hle. apply Qle_bool_iff in Hle.
    rewrite Hle in H. discriminate.
  - intros H. destruct (Qle_bool y x) eqn:E; [|done].
    apply Qle_bool_iff in E. exfalso. by apply (Qlt_not_le x y).
Qed.

Lemma face_detection_Some fidx f d :
  face_detection fidx f = Some d →
  frame d = fidx ∧ (1 # 2 <= conf d)%Q ∧ positive_area (bbox d).
Proof.
  unfold face_detection; cbn zeta.
  destruct (facial_area f !! "x") as [x|]; [|done].
  destruct (facial_area f !! "y") as [y|]; [|done].
  destruct (facial_area f !! "w") as [w|]; [|done].
  destruct (facial_area f !! "h") as [h|]; [|done].
  destruct (Qltb _ _) eqn:Hc; [done|].
  destruct (w <=? 0) eqn:Hw; [done|].
  destruct (h <=? 0) eqn:Hh; [done|].
  cbn. intros [= <-]. cbn. split; [done|]. split.
  - by apply Qltb_false.
  - split; cbn; lia.
Qed.

Lemma detect_faces_from_elem fidx extracted frameFaces d :
  frameFaces ∈ detect_faces_from fidx extracted → d ∈ frameFaces →
  (1 # 2 <= conf d)%Q ∧ positive_area (bbox d).
Proof.
  revert fidx. induction extracted as [|[faces|e] rest IH]; intros fidx; cbn.
  - by intros ?%elem_of_nil.
  - intros [->|Hin]%elem_of_cons Hd; [|by eapply IH].
    apply list_elem_of_omap in Hd as (f & _ & Hf).
    by apply face_detection_Some in Hf as (_ & ? & ?).
  - apply IH.
Qed.

Lemma detect_faces_from_length fidx extracted :
  length (detect_faces_from fidx extracted) = length (filter extracted_ok extracted).
Proof.
  revert fidx.
  induction extracted as [|[faces|e] rest IH]; intros fidx;
    [done|rewrite filter_cons; cbn [detect_faces_from]..].
  - rewrite decide_True by done. cbn. by rewrite IH.
  - rewrite decide_False by (by intros ?). apply IH.
Qed.

(** C10. Every detection that [detect_faces] emits has confidence at least
    0.5 and a box of positive width and height, and for two such detections
    neither denominator of the IOU is zero, so the IOU is computed without
    a division error. *)
Theorem detected_boxes_have_nonzero_iou_denominator
    (extracted : list extraction) (frame1 frame2 : list detection)
    (d1 d2 : detection) (evalCol : bool) :
  frame1 ∈ detect_faces extracted → d1 ∈ frame1 →
  frame2 ∈ detect_faces extracted → d2 ∈ frame2 →
  (1 # 2 <= conf d1)%Q
  ∧ 0 < bx1 (bbox d1) - bx0 (bbox d1)
  ∧ 0 < by1 (bbox d1) - by0 (bbox d1)
  ∧ boxArea (bbox d1) ≠ 0
  ∧ boxArea (bbox d1) + boxArea (bbox d2) - interArea (bbox d1) (bbox d2) ≠ 0
  ∧ ∃ iou, bb_intersection_over_union (bbox d1) (bbox d2) evalCol = Done iou.
Proof.
  intros H1 Hd1 H2 Hd2.
  destruct (detect_faces_from_elem _ _ _ _ H1 Hd1) as [Hc1 Hp1].
  destruct (detect_faces_from_elem _ _ _ _ H2 Hd2) as [Hc2 Hp2].
  pose proof (boxArea_pos _ Hp1). pose proof (union_pos _ _ Hp1 Hp2).
  destruct Hp1 as [??].
  repeat split; [done|lia..|].
  unfold bb_intersection_over_union; cbn zeta.
  destruct evalCol; rewrite div_Done by lia; eauto.
Qed.

Lemma detected_boxes_have_nonzero_iou_denominator_witness :
  let extracted := [Extracted [sample_face 0 0 10 10 (9 # 10); sample_face 40 0 8 8 (3 # 10)];
                    Extracted [sample_face 2 0 10 10 (8 # 10)]] in
  let d1 := Det 0 (Box 0 0 10 10) (9 # 10) in
  let d2 := Det 1 (Box 2 0 12 10) (8 # 10) in
  (1 # 2 <= conf d1)%Q
  ∧ 0 < bx1 (bbox d1) - bx0 (bbox d1)
  ∧ 0 < by1 (bbox d1) - by0 (bbox d1)
  ∧ boxArea (bbox d1) ≠ 0
  ∧ boxArea (bbox d1) + boxArea (bbox d2) - interArea (bbox d1) (bbox d2) ≠ 0
  ∧ ∃ iou, bb_intersection_over_union (bbox d1) (bbox d2) false = Done iou.
Proof.
  intros extracted d1 d2.
  apply (detected_boxes_have_nonzero_iou_denominator extracted [d1] [d2] d1 d2 false).
  - vm_compute. apply list_elem_of_here.
  - apply list_elem_of_here.
  - vm_compute. apply list_elem_of_further; apply list_elem_of_here.
  - apply list_elem_of_here.
Defined.

(** C2. On a frame where the extraction raises, the handler's [continue]
    skips the append: of three frames, the second of which raises, only two
    entries are recorded, and entry 1 holds the detections of frame 2. *)
Theorem detect_faces_drops_raising_frame :
  let extracted := [Extracted [sample_face 0 0 10 10 (9 # 10)];
                    Throws (Exception "unreadable image");
                    Extracted [sample_face 2 0 10 10 (8 # 10)]] in
  detect_faces extracted
  = [[Det 0 (Box 0 0 10 10) (9 # 10)]; [Det 2 (Box 2 0 12 10) (8 # 10)]]
  ∧ length (detect_faces extracted) ≠ length extracted
  ∧ frame <$> default [] (detect_faces extracted !! 1%nat) = [2].
Proof. vm_compute. by repeat split. Qed.

End DetectFaces.

(** ** Shots too short to hold a track *)

Section TrackFaces.

Local Open Scope Z_scope.

Variable self_args : args.

Lemma track_faces_short_head s scenes face_detections :
  shot_length s < min_track self_args →
  track_faces self_args (s :: scenes) face_detections
  = track_faces self_args scenes face_detections.
Proof.
  unfold shot_length. intros H. cbn [track_faces].
  destruct (min_track self_args <=? end_frame s - start_frame s) eqn:E; [lia|done].
Qed.

(** C3. A shot shorter than [min_track], whether its length is taken as the
    difference of its frame numbers or as the number of frames with both
    ends counted in, is passed over by the guard of [track_faces]: alone it
    yields no track and leaves the detections untouched, and among other
    shots the result is the one obtained without it. *)
Theorem short_shot_emits_no_track (s : shot) (before after : list shot)
    (face_detections : list (list detection)) :
  shot_length s < min_track self_args ∨ shot_frames s < min_track self_args →
  track_faces self_args [s] face_detections = Done ([], face_detections)
  ∧ track_faces self_args (before ++ s :: after) face_detections
    = track_faces self_args (before ++ after) face_detections.
Proof.
  intros H.
  assert (shot_length s < min_track self_args) as Hs
    by (unfold shot_frames in H; lia).
  clear H. split; [by rewrite track_faces_short_head|].
  revert face_detections.
  induction before as [|s0 before IH]; intros face_detections.
  - by apply track_faces_short_head.
  - cbn [app track_faces].
    destruct (min_track self_args <=? _); [|apply IH].
    destruct (track_shot _ _) as [[tracks sceneFaces]|e|]; cbn; [|done..].
    by rewrite IH.
Qed.

End TrackFaces.

Lemma short_shot_emits_no_track_witness :
  let cfg := Args 3 10 1 in
  let face_detections := (λ f, [still_face f]) <$> seqZ 0 9 in
  track_faces cfg [Shot 0 2] face_detections = Done ([], face_detections)
  ∧ track_faces cfg ([Shot 3 8] ++ Shot 0 2 :: []) face_detections
    = track_faces cfg ([Shot 3 8] ++ []) face_detections.
Proof.
  intros cfg face_detections.
  apply (short_shot_emits_no_track cfg (Shot 0 2) [Shot 3 8] [] face_detections).
  left. vm_compute. reflexivity.
Defined.

(** ** Greedy association *)

Section Remove.

Lemma detection_eqb_refl d : detection_eqb d d = true.
Proof.
  unfold detection_eqb, box_eqb.
  rewrite !Z.eqb_refl. cbn. apply Qeq_bool_iff. reflexivity.
Qed.

(** [remove] of an item read at index [i] deletes one position, at or
    before [i]. *)
Lemma remove_is_delete (l : list detection) (i : nat) (x : detection) :
  l !! i = Some x →
  ∃ j, (j ≤ i)%nat ∧ Py.remove detection_eqb x l = delete j l.
Proof.
  revert i. induction l as [|y l IH]; intros i Hi; [done|].
  cbn [Py.remove]. destruct (detection_eqb y x) eqn:E.
  - exists 0%nat. split; [lia|done].
  - destruct i as [|i]; cbn in Hi.
    + injection Hi as ->. by rewrite detection_eqb_refl in E.
    + destruct (IH i Hi) as (j & Hj & ->). exists (S j). split; [lia|done].
Qed.

Lemma remove_length (l : list detection) (i : nat) (x : detection) :
  l !! i = Some x → S (length (Py.remove detection_eqb x l)) = length l.
Proof.
  intros Hi. destruct (remove_is_delete l i x Hi) as (j & Hj & ->).
  apply lookup_lt_Some in Hi.
  rewrite length_delete; [lia|]. apply lookup_lt_is_Some. lia.
Qed.

End Remove.

Section ForFace.

Variable cfg : args.

Lemma for_face_sound fuel i track frameFaces r :
  for_face cfg fuel i track frameFaces = Done r →
  for_face_run cfg i track frameFaces r.
Proof.
  revert i track frameFaces.
  induction fuel as [|fuel IH]; intros i track frameFaces; cbn [for_face].
  - destruct (frameFaces !! i) eqn:Hi; [done|].
    intros [= <-]. by constructor.
  - destruct (frameFaces !! i) as [face|] eqn:Hi; [|intros [= <-]; by constructor].
    destruct (last track) as [prev|] eqn:Hl.
    + destruct (frame face - frame prev <=? num_failed_det cfg)%Z eqn:Hg.
      * apply Z.leb_le in Hg.
        destruct (bb_intersection_over_union (bbox face) (bbox prev) false)
          as [iou|e|] eqn:Hiou; cbn; [|done..].
        destruct (Qltb iouThres iou) eqn:Hq; intros H%IH.
        -- eapply run_join; eauto. unfold joins. by rewrite Hiou.
        -- eapply run_pass; eauto. unfold joins. by rewrite Hiou.
      * apply Z.leb_gt in Hg. intros [= <-]. eapply run_break; eauto.
    + intros H%IH. eapply run_seed; eauto.
Qed.

(** The iteration budget [length frameFaces] is never exhausted. *)
Lemma for_face_fuel fuel i track frameFaces :
  (length frameFaces ≤ fuel + i)%nat →
  for_face cfg fuel i track frameFaces ≠ OutOfFuel.
Proof.
  revert i track frameFaces.
  induction fuel as [|fuel IH]; intros i track frameFaces Hlen; cbn [for_face].
  - rewrite lookup_ge_None_2 by lia. done.
  - destruct (frameFaces !! i) as [face|] eqn:Hi; [|done].
    pose proof (remove_length _ _ _ Hi) as Hr.
    destruct (last track) as [prev|].
    + destruct (frame face - frame prev <=? num_failed_det cfg)%Z; [|done].
      destruct (bb_intersection_over_union _ _ _) as [iou|e|] eqn:Hiou; cbn.
      * destruct (Qltb iouThres iou); apply IH; lia.
      * done.
      * unfold bb_intersection_over_union, Py.div in Hiou.
        by destruct (_ =? _)%Z.
    + apply IH. lia.
Qed.

(** One loop moves detections from the list to the track. *)
Lemma for_face_run_length i track frameFaces r :
  for_face_run cfg i track frameFaces r →
  (length r.1 + length r.2 = length track + length frameFaces)%nat
  ∧ (length track ≤ length r.1)%nat.
Proof.
  induction 1 as [| i track frameFaces face r Hi _ _ IH
                  | i track frameFaces face prev r Hi _ _ _ _ IH
                  | | ]; cbn; try lia.
  all: rewrite length_app in IH; cbn in IH;
       pose proof (remove_length _ _ _ Hi); lia.
Qed.

(** The first detection met by an empty track seeds it. *)
Lemma for_face_run_seeded frameFaces face r :
  frameFaces !! 0%nat = Some face →
  for_face_run cfg 0 [] frameFaces r → r.1 ≠ [].
Proof.
  intros Hi Hrun. inversion Hrun; subst; try congruence; try done.
  match goal with H : for_face_run _ _ _ _ _ |- _ =>
    apply for_face_run_length in H as [_ Hle] end.
  rewrite length_app in Hle. cbn in Hle. intros E. rewrite E in Hle. cbn in Hle. lia.
Qed.

End ForFace.

Section Passes.

Variable cfg : args.

Lemma for_frameFaces_fuel track sceneFaces :
  for_frameFaces cfg track sceneFaces ≠ OutOfFuel.
Proof.
  revert track. induction sceneFaces as [|frameFaces rest IH]; intros track; [done|].
  cbn [for_frameFaces].
  pose proof (for_face_fuel cfg (length frameFaces) 0 track frameFaces) as Hf.
  destruct (for_face _ _ _ _ _) as [[track1 frameFaces1]|e|]; cbn;
    [|done|exfalso; apply Hf; [lia|done]].
  specialize (IH track1).
  by destruct (for_frameFaces _ _ _) as [[track2 rest2]|e|].
Qed.

(** A pass over the shot moves detections from the per-frame lists to the
    candidate track, and keeps one list per frame. *)
Lemma for_frameFaces_length track sceneFaces track' sceneFaces' :
  for_frameFaces cfg track sceneFaces = Done (track', sceneFaces') →
  (length track' + length (concat sceneFaces')
   = length track + length (concat sceneFaces))%nat
  ∧ length sceneFaces' = length sceneFaces.
Proof.
  revert track track' sceneFaces'.
  induction sceneFaces as [|frameFaces rest IH]; intros track track' sceneFaces';
    cbn [for_frameFaces].
  - intros [= <- <-]. done.
  - destruct (for_face _ _ _ _ _) as [[track1 frameFaces1]|e|] eqn:Hf; cbn; [|done..].
    destruct (for_frameFaces _ _ _) as [[track2 rest2]|e|] eqn:Hr; cbn; [|done..].
    intros [= <- <-].
    apply for_face_sound, for_face_run_length in Hf as [Hf _]. cbn in Hf.
    apply IH in Hr as [Hr Hl]. cbn. rewrite !length_app. split; lia.
Qed.

Lemma interp1d_fuel x y x_new : interp1d x y x_new ≠ OutOfFuel.
Proof.
  unfold interp1d. generalize (sort_points (zip x y)) as pts. intros pts.
  induction x_new as [|v x_new IH]; [done|].
  cbn. destruct (interp_at pts v); cbn; [|done].
  by destruct (mapM _ x_new).
Qed.

Lemma interpolate_track_fuel track : interpolate_track cfg track ≠ OutOfFuel.
Proof.
  unfold interpolate_track.
  destruct (head _); [|done]. destruct (last _); [|done]. cbn zeta.
  repeat match goal with
  | |- context [interp1d ?x ?y ?z] =>
      let H := fresh in
      pose proof (interp1d_fuel x y z) as H;
      destruct (interp1d x y z); cbn; [clear H|done|done]
  end.
  by destruct (big_enough _ _).
Qed.

(** A round of [while True] that finds a candidate takes it out of the
    lists, so the detections of the shot bound the number of rounds. *)
Lemma while_true_fuel fuel sceneFaces tracks :
  (length (concat sceneFaces) < fuel)%nat →
  while_true cfg fuel sceneFaces tracks ≠ OutOfFuel.
Proof.
  revert sceneFaces tracks.
  induction fuel as [|fuel IH]; intros sceneFaces tracks Hlen; [lia|].
  cbn [while_true].
  pose proof (for_frameFaces_fuel [] sceneFaces) as Hf.
  destruct (for_frameFaces _ _ _) as [[track sceneFaces1]|e|] eqn:Hp; cbn; [|done..].
  destruct track as [|d track]; [done|].
  apply for_frameFaces_length in Hp as [Hp _]. cbn in Hp.
  destruct (_ <? _)%Z.
  - destruct (interpolate_track _ _) as [emitted|e|] eqn:He; cbn.
    + apply IH. lia.
    + done.
    + by apply interpolate_track_fuel in He.
  - apply IH. lia.
Qed.

(** [track_shot] returns or raises. *)
Lemma track_shot_fuel sceneFaces : track_shot cfg sceneFaces ≠ OutOfFuel.
Proof. apply while_true_fuel. lia. Qed.

End Passes.

(** *** Candidate tracks on frame-indexed detections *)

Section Chronology.

Local Open Scope Z_scope.

Variable cfg : args.

Lemma faces_apart_delete frameFaces j :
  faces_apart frameFaces → faces_apart (delete j frameFaces).
Proof.
  intros H a b x y Hab. rewrite !list_lookup_delete.
  intros Ha Hb. eapply H; [|done..].
  repeat case_decide; lia.
Qed.

Lemma Forall_delete {A} (P : A → Prop) (l : list A) j :
  Forall P l → Forall P (delete j l).
Proof.
  rewrite !Forall_lookup. intros H i x. rewrite list_lookup_delete. apply H.
Qed.

Lemma frame_indexed_cons base frameFaces rest :
  frame_indexed base (frameFaces :: rest) ↔
  Forall (λ d, frame d = base) frameFaces ∧ frame_indexed (base + 1) rest.
Proof.
  unfold frame_indexed. split.
  - intros H. split.
    + apply Forall_forall. intros d Hd. rewrite (H 0%nat frameFaces d); [lia|done|done].
    + intros k l d Hk Hd. rewrite (H (S k) l d); [lia|done|done].
  - intros [H0 H] [|k] l d Hk Hd; cbn in Hk.
    + injection Hk as <-. rewrite Forall_forall in H0. rewrite (H0 d Hd). lia.
    + rewrite (H k l d Hk Hd). lia.
Qed.

(** The loop on the list of one frame, numbered [F]: either no detection of
    this frame is on the track yet, or the last one is, and nothing left to
    visit overlaps it. *)
Lemma for_face_run_later F i track frameFaces r :
  for_face_run cfg i track frameFaces r →
  StronglySorted later track →
  Forall (λ d, frame d = F) frameFaces →
  faces_apart frameFaces →
  (Forall (λ d, frame d < F) track
   ∨ (Forall (λ d, frame d ≤ F) track
      ∧ ∀ p, last track = Some p →
             ∀ (j : nat) x, (i ≤ j)%nat → frameFaces !! j = Some x → joins x p = false)) →
  StronglySorted later r.1 ∧ Forall (λ d, frame d ≤ F) r.1
  ∧ Forall (λ d, frame d = F) r.2 ∧ faces_apart r.2.
Proof.
  induction 1 as [ i track frameFaces Hi
                 | i track frameFaces face r Hi Hl Hrun IH
                 | i track frameFaces face prev r Hi Hl Hgap Hj Hrun IH
                 | i track frameFaces face prev r Hi Hl Hgap Hj Hrun IH
                 | i track frameFaces face prev Hi Hl Hgap ];
    intros Hs HF Hap Hst; cbn.
  - split; [done|]. split; [|done]. destruct Hst as [H|[H _]]; [|done].
    eapply Forall_impl; [done|]. cbn. lia.
  - destruct (remove_is_delete _ _ _ Hi) as (j0 & Hj0 & Hrm). rewrite Hrm in *.
    apply last_None in Hl as ->.
    assert (frame face = F) as HfF.
    { rewrite Forall_lookup in HF. by eapply HF. }
    apply IH.
    + cbn. repeat constructor.
    + by apply Forall_delete.
    + by apply faces_apart_delete.
    + right. split; [apply Forall_singleton; lia|].
      cbn. intros p [= <-] j x Hj. rewrite list_lookup_delete_ge by lia.
      intros Hx. eapply Hap; [|done..]. lia.
  - destruct (remove_is_delete _ _ _ Hi) as (j0 & Hj0 & Hrm). rewrite Hrm in *.
    assert (frame face = F) as HfF.
    { rewrite Forall_lookup in HF. by eapply HF. }
    destruct Hst as [Hopen|[_ Hclosed]].
    2:{ rewrite (Hclosed prev Hl i face) in Hj; [done|lia|done]. }
    apply IH.
    + apply StronglySorted_app_2; [|done|repeat constructor].
      intros x1 x2 Hx1 ->%list_elem_of_singleton.
      rewrite Forall_forall in Hopen. unfold later. rewrite HfF. by apply Hopen.
    + by apply Forall_delete.
    + by apply faces_apart_delete.
    + right. split.
      * apply Forall_app. split; [|apply Forall_singleton; lia].
        eapply Forall_impl; [done|]. cbn. lia.
      * intros p. rewrite last_snoc. intros [= <-] j x Hj'.
        rewrite list_lookup_delete_ge by lia.
        intros Hx. eapply Hap; [|done..]. lia.
  - apply IH; [done..|].
    destruct Hst as [Hopen|[Hall Hclosed]]; [by left|right].
    split; [done|]. intros p Hp j x Hj'. apply Hclosed; [done|lia].
  - split; [done|]. split; [|done]. destruct Hst as [H|[H _]]; [|done].
    eapply Forall_impl; [done|]. cbn. lia.
Qed.

(** A pass that starts a track on frame-indexed lists, whose frames hold no
    two overlapping detections, yields a candidate on strictly increasing
    frames, and leaves lists of the same kind. *)
Lemma for_frameFaces_later base track sceneFaces track' sceneFaces' :
  for_frameFaces cfg track sceneFaces = Done (track', sceneFaces') →
  frame_indexed base sceneFaces → Forall faces_apart sceneFaces →
  StronglySorted later track → Forall (λ d, frame d < base) track →
  StronglySorted later track'
  ∧ frame_indexed base sceneFaces' ∧ Forall faces_apart sceneFaces'.
Proof.
  revert base track track' sceneFaces'.
  induction sceneFaces as [|frameFaces rest IH];
    intros base track track' sceneFaces'; cbn [for_frameFaces].
  - intros [= <- <-]. done.
  - destruct (for_face _ _ _ _ _) as [[track1 frameFaces1]|e|] eqn:Hf; cbn; [|done..].
    destruct (for_frameFaces _ _ _) as [[track2 rest2]|e|] eqn:Hr; cbn; [|done..].
    intros [= <- <-] [HF Hidx]%frame_indexed_cons [Hap Haps]%Forall_cons Hs Hlt.
    apply for_face_sound in Hf.
    eapply (for_face_run_later base) in Hf as (Hs1 & Hle1 & HF1 & Hap1);
      [|done|done|done|by left].
    cbn in *.
    eapply (IH (base + 1)) in Hr as (Hs2 & Hidx2 & Haps2); [|done..|].
    + split; [done|]. split; [by apply frame_indexed_cons|by constructor].
    + eapply Forall_impl; [done|]. cbn. lia.
Qed.

End Chronology.

(** *** Emitted tracks *)

Section Emitted.

Local Open Scope Z_scope.

Variable cfg : args.

Lemma mapM_Done_length {A B} (f : A → outcome B) l r :
  mapM f l = Done r → length r = length l.
Proof.
  revert r. induction l as [|x l IH]; intros r; cbn.
  - by intros [= <-].
  - destruct (f x); cbn; [|done..].
    destruct (mapM f l); cbn; [|done..].
    intros [= <-]. cbn. f_equal. by apply IH.
Qed.

Lemma interp1d_length x y x_new r :
  interp1d x y x_new = Done r → length r = length x_new.
Proof. apply mapM_Done_length. Qed.

Lemma stack4_length c0 c1 c2 c3 n :
  length c0 = n → length c1 = n → length c2 = n → length c3 = n →
  length (stack4 c0 c1 c2 c3) = n.
Proof.
  revert c0 c1 c2 c3. induction n as [|n IH]; intros [|a c0] [|b c1] [|c c2] [|d c3];
    cbn; try done.
  intros [= H0] [= H1] [= H2] [= H3]. f_equal. by apply IH.
Qed.

Lemma big_enough_nonempty bboxesI : big_enough cfg bboxesI = true → bboxesI ≠ [].
Proof. by intros H ->. Qed.

(** What a track appended by [track_shot] is made of. *)
Lemma interpolate_track_Some track t :
  interpolate_track cfg track = Done (Some t) →
  ∃ first final,
    head (frame <$> track) = Some first ∧ last (frame <$> track) = Some final
    ∧ first ≤ final
    ∧ Track.frame t = seqZ first (final - first + 1)
    ∧ length (Track.bbox t) = length (Track.frame t)
    ∧ length (Track.confidence t) = length (Track.frame t).
Proof.
  unfold interpolate_track.
  destruct (head _) as [first|]; [|done]. destruct (last _) as [final|]; [|done].
  cbn zeta.
  repeat match goal with
  | |- context [interp1d ?x ?y ?z] =>
      let H := fresh "Hcol" in
      destruct (interp1d x y z) as [?| |] eqn:H; cbn; [|done..];
      apply interp1d_length in H
  end.
  destruct (big_enough _ _) eqn:Hbig; [|done].
  intros [= <-]. cbn.
  apply big_enough_nonempty in Hbig.
  exists first, final. unfold Py.arange in *.
  replace (final + 1 - first) with (final - first + 1) in * by lia.
  split; [done|]. split; [done|].
  match type of Hbig with
  | stack4 ?c0 ?c1 ?c2 ?c3 ≠ [] =>
      assert (length (stack4 c0 c1 c2 c3) = length (seqZ first (final - first + 1)))
        as Hlen by (by apply stack4_length)
  end.
  repeat split; try done.
  destruct (decide (first ≤ final)) as [|Hn]; [done|].
  rewrite seqZ_nil in Hlen by lia. by destruct (stack4 _ _ _ _).
Qed.


Lemma seqZ_head_last m n :
  0 < n → head (seqZ m n) = Some m ∧ last (seqZ m n) = Some (m + n - 1).
Proof.
  intros Hn. split.
  - rewrite head_lookup. rewrite lookup_seqZ_lt by lia. f_equal. lia.
  - rewrite last_lookup, length_seqZ. rewrite lookup_seqZ_lt by lia. f_equal. lia.
Qed.

(** A candidate on strictly increasing frames spans at least as many frames
    as it has detections. *)
Lemma later_span track first final :
  StronglySorted later track →
  head (frame <$> track) = Some first → last (frame <$> track) = Some final →
  first + Py.len track - 1 ≤ final.
Proof.
  unfold Py.len. revert first.
  induction track as [|a [|b track] IH]; intros first Hs; [done| |].
  - cbn. intros [= <-] [= <-]. lia.
  - intros [= <-]. rewrite !fmap_cons, last_cons_cons. intros Hl.
    apply StronglySorted_inv in Hs as [Hs Ha].
    apply Forall_cons in Ha as [Hab _]. unfold later in Hab.
    specialize (IH (frame b) Hs eq_refl Hl). cbn [length] in *. lia.
Qed.

(** The tracks that [while True] appends come from candidates longer than
    [min_track]; [I] is any property of the per-frame lists that the passes
    keep and [P] what it gives of the candidate. *)
Lemma while_true_emitted (I : list (list detection) → Prop) (P : list detection → Prop) :
  (∀ sceneFaces track sceneFaces',
     I sceneFaces → for_frameFaces cfg [] sceneFaces = Done (track, sceneFaces') →
     I sceneFaces' ∧ P track) →
  ∀ fuel sceneFaces tracks tracks' sceneFaces',
    I sceneFaces →
    while_true cfg fuel sceneFaces tracks = Done (tracks', sceneFaces') →
    ∀ t, t ∈ tracks' →
      t ∈ tracks
      ∨ ∃ track, P track ∧ min_track cfg < Py.len track
                 ∧ interpolate_track cfg track = Done (Some t).
Proof.
  intros Hpass. induction fuel as [|fuel IH];
    intros sceneFaces tracks tracks' sceneFaces' HI; [done|].
  cbn [while_true].
  destruct (for_frameFaces _ _ _) as [[track sceneFaces1]|e|] eqn:Hp; cbn; [|done..].
  destruct (Hpass _ _ _ HI Hp) as [HI1 HP].
  destruct track as [|d track]; [intros [= <- <-]; by left|].
  destruct (_ <? _) eqn:Hlen.
  - apply Z.ltb_lt in Hlen.
    destruct (interpolate_track _ _) as [emitted|e|] eqn:He; cbn; [|done..].
    intros Hw t Ht. destruct (IH _ _ _ _ HI1 Hw t Ht) as [Hin|Hnew]; [|by right].
    apply elem_of_app in Hin as [Hin|Hin]; [by left|].
    destruct emitted as [t'|]; cbn in Hin; [|by apply elem_of_nil in Hin].
    apply list_elem_of_singleton in Hin as ->. right. eauto.
  - intros Hw t Ht. by apply (IH _ _ _ _ HI1 Hw).
Qed.

End Emitted.

Section TrackShotTheorems.

Local Open Scope Z_scope.




(** C5. The rule of the specification and the loop disagree on a frame with
    two overlapping detections: [B] is within the gap of the seed [A] and
    overlaps it by more than the threshold, but the removal of [A] moves [B]
    under the iterator, so the loop never examines it; it is left in the
    list and seeds the next candidate. *)
Theorem for_face_skips_detection_after_removal :
  let cfg := Args 10 10 1 in
  let A := Det 0 (Box 0 0 10 10) (9 # 10) in
  let B := Det 0 (Box 1 0 11 10) (8 # 10) in
  (frame B - frame A ≤ num_failed_det cfg ∧ joins B A = true)
  ∧ TrackBuilderSpec.scan_frames (num_failed_det cfg) [] [[A; B]] = Done ([A; B], [[]])
  ∧ for_frameFaces cfg [] [[A; B]] = Done ([A], [[B]])
  ∧ for_frameFaces cfg [] [[B]] = Done ([B], [[]]).
Proof. vm_compute. repeat split; discriminate. Qed.

End TrackShotTheorems.

(** ** Alignment and multi-scale scoring *)

Import ActiveSpeakerDetector.

Section Rounding.

Local Open Scope Z_scope.

Lemma round_cases q : Py.round q = Qfloor q ∨ Py.round q = Qfloor q + 1.
Proof.
  unfold Py.round; cbn zeta.
  destruct (_ ?= _)%Q; [destruct (Z.even _)|..]; auto.
Qed.

Lemma round_nonneg q : (0 <= q)%Q → 0 ≤ Py.round q.
Proof.
  intros H%Qfloor_resp_le. change (Qfloor 0) with 0 in H.
  destruct (round_cases q) as [-> | ->]; lia.
Qed.

Lemma round_le_Z q n : (q <= inject_Z n)%Q → Py.round q ≤ n.
Proof.
  intros H. pose proof (Qfloor_resp_le _ _ H) as Hf. rewrite Qfloor_Z in Hf.
  destruct (decide (Qfloor q = n)) as [E|E].
  - assert (q - inject_Z (Qfloor q) == 0)%Q as H0.
    { pose proof (Qfloor_le q). rewrite E in *. lra. }
    unfold Py.round; cbn zeta.
    assert ((q - inject_Z (Qfloor q) ?= 1 # 2)%Q = Lt) as ->; [|lia].
    apply Qlt_alt. rewrite H0. reflexivity.
  - destruct (round_cases q) as [-> | ->]; lia.
Qed.

Lemma slice_prefix {A} (l : list A) n :
  0 ≤ n → Py.slice l 0 n = take (Z.to_nat n) l.
Proof.
  intros Hn. unfold Py.slice, Py.slice_bound, Py.len; cbn zeta.
  change (0 <? 0) with false. cbn match.
  destruct (n <? 0) eqn:En; [lia|].
  rewrite (Z.min_l 0) by lia. change (Z.to_nat 0) with 0%nat.
  rewrite drop_0, Z.sub_0_r.
  destruct (decide (n ≤ Z.of_nat (length l))).
  - by rewrite Z.min_l by lia.
  - rewrite Z.min_r by lia. rewrite Nat2Z.id.
    rewrite !take_ge by lia. done.
Qed.

End Rounding.

(** *** Binary64 rounding *)

Section Binary64.

Local Open Scope Z_scope.

Lemma round_near q : (q - (1 # 2) <= inject_Z (Py.round q) <= q + (1 # 2))%Q.
Proof.
  pose proof (Qfloor_le q) as Hl. pose proof (Qlt_floor q) as Hu.
  rewrite inject_Z_plus in Hu. change (inject_Z 1) with 1%Q in Hu.
  unfold Py.round; cbn zeta.
  destruct (q - inject_Z (Qfloor q) ?= 1 # 2)%Q eqn:E.
  - apply Qeq_alt in E. destruct (Z.even _).
    + lra.
    + rewrite inject_Z_plus. change (inject_Z 1) with 1%Q. lra.
  - apply Qlt_alt in E. lra.
  - apply Qgt_alt in E. rewrite inject_Z_plus. change (inject_Z 1) with 1%Q. lra.
Qed.

Lemma round_is q n :
  (inject_Z n - (1 # 2) < q)%Q → (q < inject_Z n + (1 # 2))%Q → Py.round q = n.
Proof.
  intros Hl Hu. pose proof (round_near q) as [H1 H2].
  assert (inject_Z (Py.round q) < inject_Z (n + 1))%Q as Ha.
  { rewrite inject_Z_plus. change (inject_Z 1) with 1%Q. lra. }
  assert (inject_Z (n - 1) < inject_Z (Py.round q))%Q as Hb.
  { replace (n - 1) with (n + -1) by lia. rewrite inject_Z_plus.
    change (inject_Z (-1)) with (-1 # 1)%Q. lra. }
  rewrite <- Zlt_Qlt in Ha, Hb. lia.
Qed.

Lemma two_power_pos (k : Z) : (0 < 2 ^ k)%Q.
Proof. by apply Qpower_0_lt. Qed.

Lemma two_power_nat (k : Z) : 0 ≤ k → (2 ^ k == inject_Z (2 ^ k))%Q.
Proof. intros Hk. by rewrite Zpower_Qpower. Qed.

(** [exponent] finds the binade of a positive rational. *)
Lemma exponent_spec q :
  (0 < q)%Q → (2 ^ Float.exponent q <= q)%Q ∧ (q < 2 ^ (Float.exponent q + 1))%Q.
Proof.
  intros Hq. destruct q as [n d]. unfold Float.exponent. cbn [Qnum Qden].
  assert (0 < n) as Hn by (unfold Qlt in Hq; cbn in Hq; lia).
  pose proof (Z.log2_spec n Hn) as [Hn1 Hn2].
  pose proof (Z.log2_spec (Z.pos d) (Pos2Z.is_pos d)) as [Hd1 Hd2].
  pose proof (Z.log2_nonneg n) as Hln. pose proof (Z.log2_nonneg (Z.pos d)) as Hld.
  set (ln := Z.log2 n) in *. set (ld := Z.log2 (Z.pos d)) in *.
  assert (n # d == inject_Z n / inject_Z (Z.pos d))%Q as Eq by apply Qmake_Qdiv.
  assert (0 < inject_Z (Z.pos d))%Q as Hdq by (rewrite <- (Zlt_Qlt 0); lia).
  destruct (Qle_bool (2 ^ (ln - ld)) (n # d)) eqn:E.
  - apply Qle_bool_iff in E. split; [done|].
    replace (ln - ld + 1) with ((ln + 1) - ld) by lia.
    rewrite Qpower_minus by done. rewrite !two_power_nat by lia. rewrite Eq.
    apply Qlt_shift_div_l; [rewrite <- (Zlt_Qlt 0); lia|].
    assert (inject_Z n / inject_Z (Z.pos d) * inject_Z (2 ^ ld)
            == inject_Z (n * 2 ^ ld) / inject_Z (Z.pos d))%Q as ->.
    { rewrite inject_Z_mult. field. intros H0. rewrite H0 in Hdq. by apply Qlt_irrefl in Hdq. }
    apply Qlt_shift_div_r; [done|]. rewrite <- inject_Z_mult, <- Zlt_Qlt. nia.
  - assert (¬ (2 ^ (ln - ld) <= n # d)%Q) as E' by (rewrite <- Qle_bool_iff, E; done).
    apply Qnot_le_lt in E'. split.
    + replace (ln - ld - 1) with (ln - (ld + 1)) by lia.
      rewrite Qpower_minus by done. rewrite !two_power_nat by lia. rewrite Eq.
      apply Qle_shift_div_r; [rewrite <- (Zlt_Qlt 0); lia|].
      assert (inject_Z n / inject_Z (Z.pos d) * inject_Z (2 ^ (ld + 1))
              == inject_Z (n * 2 ^ (ld + 1)) / inject_Z (Z.pos d))%Q as ->.
      { rewrite inject_Z_mult. field. intros H0. rewrite H0 in Hdq. by apply Qlt_irrefl in Hdq. }
      apply Qle_shift_div_l; [done|]. rewrite <- inject_Z_mult, <- Zle_Qle. nia.
    + by replace (ln - ld - 1 + 1) with (ln - ld) by lia.
Qed.

Lemma two_power_lt_inv (a b : Z) : (2 ^ a < 2 ^ b)%Q → a < b.
Proof. intros H. by apply (Qpower_lt_compat_l_inv 2 a b). Qed.

Lemma exponent_ge q k : (2 ^ k <= q)%Q → k ≤ Float.exponent q.
Proof.
  intros H. assert (0 < q)%Q as Hq by (eapply Qlt_le_trans; [apply (two_power_pos k)|done]).
  destruct (exponent_spec q Hq) as [_ Hu].
  assert (2 ^ k < 2 ^ (Float.exponent q + 1))%Q as Hlt by (eapply Qle_lt_trans; done).
  apply two_power_lt_inv in Hlt. lia.
Qed.

Lemma exponent_lt q k : (0 < q)%Q → (q < 2 ^ k)%Q → Float.exponent q < k.
Proof.
  intros Hq H. destruct (exponent_spec q Hq) as [Hl _].
  apply two_power_lt_inv. by eapply Qle_lt_trans.
Qed.

Lemma Qabs_of_pos q : (0 < q)%Q → Qabs q = q.
Proof.
  destruct q as [n d]. unfold Qlt; cbn. intros H. f_equal. lia.
Qed.

Lemma b64_of_zero q : (q == 0)%Q → Float.b64 q = 0%Q.
Proof. intros H. unfold Float.b64. by apply Qeq_bool_iff in H as ->. Qed.

Lemma b64_of_pos q :
  (0 < q)%Q → -1022 ≤ Float.exponent q →
  let e := Float.exponent q - 52 in
  Float.b64 q = (inject_Z (Py.round (q / 2 ^ e)) * 2 ^ e)%Q.
Proof.
  intros Hq He. unfold Float.b64.
  destruct (Qeq_bool q 0) eqn:E.
  { apply Qeq_bool_iff in E. rewrite E in Hq. by apply Qlt_irrefl in Hq. }
  cbn zeta. rewrite Qabs_of_pos by done. by rewrite Z.max_l by lia.
Qed.

(** Rounding to a normal float changes a number by at most the fraction
    [Float.u] of it. *)
Lemma b64_close q :
  (0 < q)%Q → -1022 ≤ Float.exponent q →
  (q * (1 - Float.u) <= Float.b64 q)%Q ∧ (Float.b64 q <= q * (1 + Float.u))%Q.
Proof.
  intros Hq He. rewrite b64_of_pos by done.
  destruct (exponent_spec q Hq) as [Hl _].
  set (e := Float.exponent q - 52) in *.
  replace (Float.exponent q) with (e + 52) in Hl by (unfold e; lia).
  rewrite Qpower_plus in Hl by done.
  pose proof (two_power_pos e) as Hw. set (w := (2 ^ e)%Q) in *.
  assert (¬ w == 0)%Q as Hw0 by (intros E; rewrite E in Hw; by apply Qlt_irrefl in Hw).
  pose proof (round_near (q / w)) as [H1 H2].
  set (m := inject_Z (Py.round (q / w))) in *.
  assert (q == q / w * w)%Q as Eq by (field; done).
  change (2 ^ 52)%Q with (4503599627370496 # 1)%Q in Hl. unfold Float.u.
  assert ((q / w - (1 # 2)) * w <= m * w)%Q as H1'
    by (apply Qmult_le_compat_r; [done|by apply Qlt_le_weak]).
  assert (m * w <= (q / w + (1 # 2)) * w)%Q as H2'
    by (apply Qmult_le_compat_r; [done|by apply Qlt_le_weak]).
  assert ((q / w - (1 # 2)) * w == q - (1 # 2) * w)%Q as E1 by (field; done).
  assert ((q / w + (1 # 2)) * w == q + (1 # 2) * w)%Q as E2 by (field; done).
  rewrite E1 in H1'. rewrite E2 in H2'. split; lra.
Qed.

Lemma b64_near q :
  (q == 0 ∨ 1 # 18446744073709551616 <= q)%Q →
  (q * (1 - Float.u) <= Float.b64 q)%Q ∧ (Float.b64 q <= q * (1 + Float.u))%Q.
Proof.
  intros [H0|Hq].
  - rewrite (b64_of_zero q H0). unfold Float.u. split; lra.
  - assert (0 < q)%Q as Hpos by (eapply Qlt_le_trans; [|exact Hq]; done).
    apply b64_close; [done|].
    assert (-64 ≤ Float.exponent q); [|lia].
    apply exponent_ge. eapply Qle_trans; [|exact Hq]. by vm_compute.
Qed.

(** [b64] and the Standard Library's binary64 give the same floats in the
    expressions of the alignment, on every count up to 250 samples. *)
Lemma b64_agrees_with_SpecFloat : forallb Ieee.agree_on (seqZ 0 251) = true.
Proof. by vm_compute. Qed.

(** The float nearest to one tenth. *)
Lemma b64_one_tenth : (Float.truediv 1 10 == 3602879701896397 # 36028797018963968)%Q.
Proof. by vm_compute. Qed.

(** An integer below [2^53] is a float. *)
Lemma of_int_exact n : 0 ≤ n < 2 ^ 53 → (Float.of_int n == inject_Z n)%Q.
Proof.
  intros [H0 Hn]. unfold Float.of_int.
  destruct (decide (n = 0)) as [->|Hne]; [done|].
  assert (0 < inject_Z n)%Q as Hq by (rewrite <- (Zlt_Qlt 0); lia).
  assert (0 ≤ Float.exponent (inject_Z n)) as He0.
  { apply exponent_ge. change (2 ^ 0)%Q with (inject_Z 1). rewrite <- Zle_Qle. lia. }
  assert (Float.exponent (inject_Z n) < 53) as He1.
  { apply exponent_lt; [done|]. rewrite two_power_nat by lia. by rewrite <- Zlt_Qlt. }
  rewrite b64_of_pos by (done || lia).
  set (e := Float.exponent (inject_Z n) - 52).
  pose proof (two_power_pos e) as Hw.
  assert (2 ^ e == / inject_Z (2 ^ (- e)))%Q as Ew.
  { replace e with (- - e) at 1 by lia. rewrite Qpower_opp.
    by rewrite two_power_nat by (unfold e; lia). }
  assert (0 < 2 ^ (- e)) as Hp by (apply Z.pow_pos_nonneg; unfold e; lia).
  assert (¬ inject_Z (2 ^ (- e)) == 0)%Q as Hp0.
  { change 0%Q with (inject_Z 0). rewrite inject_Z_injective. lia. }
  assert (inject_Z n / 2 ^ e == inject_Z (n * 2 ^ (- e)))%Q as Ex.
  { rewrite Ew, inject_Z_mult. field. done. }
  rewrite (round_is _ (n * 2 ^ (- e))) by (rewrite Ex; lra).
  rewrite Ew, inject_Z_mult. field. done.
Qed.

Lemma b64_near_twice x X :
  (X * (1 - Float.u) <= x)%Q → (x <= X * (1 + Float.u))%Q →
  (x == 0 ∨ 1 # 18446744073709551616 <= x)%Q →
  (X * (1 - Float.u) * (1 - Float.u) <= Float.b64 x)%Q ∧ (Float.b64 x <= X * (1 + Float.u) * (1 + Float.u))%Q.
Proof.
  intros Hl Hu Hr. destruct (b64_near x Hr) as [H1 H2]. unfold Float.u in *. split; lra.
Qed.

Lemma truediv_close (n k : Z) :
  0 ≤ n → 0 < k ≤ 2 ^ 64 →
  let q := (inject_Z n / inject_Z k)%Q in
  (q * (1 - Float.u) <= Float.truediv n k)%Q ∧ (Float.truediv n k <= q * (1 + Float.u))%Q.
Proof.
  intros Hn Hk q. apply b64_near.
  assert (0 < inject_Z k)%Q as Hkq by (rewrite <- (Zlt_Qlt 0); lia).
  destruct (decide (n = 0)) as [->|Hne]; [left; reflexivity|right].
  apply Qle_shift_div_l; [done|].
  assert (inject_Z k <= inject_Z (2 ^ 64))%Q as H1 by (rewrite <- Zle_Qle; lia).
  assert (inject_Z 1 <= inject_Z n)%Q as H2 by (rewrite <- Zle_Qle; lia).
  change (inject_Z (2 ^ 64)) with (18446744073709551616 # 1)%Q in H1.
  change (inject_Z 1) with 1%Q in H2. lra.
Qed.

(** The common duration, as a float, is within the fraction [Float.u] of
    [min(a, 4 v) / 100]. *)
Lemma duration_close (a v : Z) :
  0 ≤ a → 0 ≤ v →
  let d := Qmin (Float.truediv a 100) (Float.truediv v 25) in
  let M := (inject_Z (Z.min a (4 * v)) * (1 # 100))%Q in
  (M * (1 - Float.u) <= d)%Q ∧ (d <= M * (1 + Float.u))%Q.
Proof.
  intros Ha Hv.
  destruct (truediv_close a 100) as [Ha1 Ha2]; [lia|lia|].
  destruct (truediv_close v 25) as [Hv1 Hv2]; [lia|lia|].
  cbn zeta in *.
  change (inject_Z a / inject_Z 100)%Q with (inject_Z a * (1 # 100))%Q in *.
  change (inject_Z v / inject_Z 25)%Q with (inject_Z v * (1 # 25))%Q in *.
  assert (0 <= inject_Z a)%Q as Ha0 by (rewrite <- (Zle_Qle 0); lia).
  assert (0 <= inject_Z v)%Q as Hv0 by (rewrite <- (Zle_Qle 0); lia).
  destruct (Q.min_spec (Float.truediv a 100) (Float.truediv v 25)) as [[Hlt ->]|[Hle ->]];
    destruct (Z.min_spec a (4 * v)) as [[Hz ->]|[Hz ->]];
    try (rewrite inject_Z_mult; change (inject_Z 4) with 4%Q).
  - unfold Float.u in *. split; lra.
  - assert (inject_Z (4 * v) <= inject_Z a)%Q as Hq by (rewrite <- Zle_Qle; lia).
    rewrite inject_Z_mult in Hq. change (inject_Z 4) with 4%Q in Hq.
    unfold Float.u in *. split; lra.
  - assert (inject_Z a <= inject_Z (4 * v))%Q as Hq by (rewrite <- Zle_Qle; lia).
    rewrite inject_Z_mult in Hq. change (inject_Z 4) with 4%Q in Hq.
    unfold Float.u in *. split; lra.
  - unfold Float.u in *. split; lra.
Qed.

Lemma duration_range (a v : Z) :
  0 ≤ a → 0 ≤ v →
  let d := Qmin (Float.truediv a 100) (Float.truediv v 25) in
  let m := Z.min a (4 * v) in
  (0 <= d)%Q ∧ (m = 0 → (d == 0)%Q) ∧ (0 < m → (1 # 200 <= d)%Q).
Proof.
  intros Ha Hv d m. destruct (duration_close a v Ha Hv) as [H1 H2]. fold d m in H1, H2.
  assert (0 ≤ m) as Hm by (unfold m; lia).
  assert (0 <= inject_Z m)%Q as Hm0 by (rewrite <- (Zle_Qle 0); lia).
  split; [unfold Float.u in *; lra|]. split.
  - intros E. rewrite E in H1, H2. change (inject_Z 0) with 0%Q in *. unfold Float.u in *. lra.
  - intros Hpos. assert (inject_Z 1 <= inject_Z m)%Q as Hq by (rewrite <- Zle_Qle; lia).
    change (inject_Z 1) with 1%Q in Hq. unfold Float.u in *. lra.
Qed.

(** The float product [d * c] of the duration and an integer constant. *)
Lemma scaled_close (a v c : Z) :
  0 ≤ a → 0 ≤ v → 1 ≤ c ≤ 100 →
  let d := Qmin (Float.truediv a 100) (Float.truediv v 25) in
  let M := (inject_Z (Z.min a (4 * v)) * (1 # 100))%Q in
  let p := Float.mul d (Float.of_int c) in
  (M * inject_Z c * (1 - Float.u) * (1 - Float.u) <= p)%Q
  ∧ (p <= M * inject_Z c * (1 + Float.u) * (1 + Float.u))%Q.
Proof.
  intros Ha Hv Hc d M p. unfold p, Float.mul.
  destruct (duration_close a v Ha Hv) as [H1 H2].
  destruct (duration_range a v Ha Hv) as (Hd0 & Hz & Hp).
  fold d M in H1, H2. fold d in Hd0, Hz, Hp.
  assert (0 < inject_Z c)%Q as Hcq by (rewrite <- (Zlt_Qlt 0); lia).
  assert (inject_Z 1 <= inject_Z c)%Q as Hc1 by (rewrite <- Zle_Qle; lia).
  change (inject_Z 1) with 1%Q in Hc1.
  assert (M * inject_Z c * (1 - Float.u) == M * (1 - Float.u) * inject_Z c)%Q as E1 by ring.
  assert (M * inject_Z c * (1 + Float.u) == M * (1 + Float.u) * inject_Z c)%Q as E2 by ring.
  apply b64_near_twice; rewrite (of_int_exact c) by lia.
  - rewrite E1. apply Qmult_le_compat_r; [done|by apply Qlt_le_weak].
  - rewrite E2. apply Qmult_le_compat_r; [done|by apply Qlt_le_weak].
  - destruct (decide (Z.min a (4 * v) = 0)) as [E|E].
    + left. rewrite (Hz E). ring.
    + right. assert (1 # 200 <= d)%Q as Hd by (apply Hp; lia).
      assert ((1 # 200) * 1 <= d * inject_Z c)%Q as Hprod.
      { eapply Qle_trans; [apply Qmult_le_compat_r; [exact Hd|done]|].
        rewrite (Qmult_comm d 1), (Qmult_comm d (inject_Z c)).
        apply Qmult_le_compat_r; [done|lra]. }
      lra.
Qed.

(** The audio keeps [min(a, 4 v)] rows; the video keeps a quarter of that,
    rounded to a nearest integer. *)
Lemma align_counts (a v : Z) :
  0 ≤ a < 2 ^ 40 → 0 ≤ v < 2 ^ 40 →
  let d := Qmin (Float.truediv a 100) (Float.truediv v 25) in
  let m := Z.min a (4 * v) in
  Py.round (Float.mul d (Float.of_int 100)) = m
  ∧ m - 2 ≤ 4 * Py.round (Float.mul d (Float.of_int 25)) ≤ m + 2.
Proof.
  intros Ha Hv d m.
  assert (0 ≤ m < 2 ^ 42) as Hm by (unfold m; lia).
  assert (0 <= inject_Z m)%Q as Hm0 by (rewrite <- (Zle_Qle 0); lia).
  assert (inject_Z m <= inject_Z (2 ^ 42))%Q as Hm1 by (rewrite <- Zle_Qle; lia).
  change (inject_Z (2 ^ 42)) with (4398046511104 # 1)%Q in Hm1.
  split.
  - destruct (scaled_close a v 100) as [H1 H2]; [lia..|]. cbn zeta in *.
    fold d m in H1, H2. change (inject_Z 100) with 100%Q in *.
    apply round_is; unfold Float.u in *; lra.
  - destruct (scaled_close a v 25) as [H1 H2]; [lia..|]. cbn zeta in *.
    fold d m in H1, H2. change (inject_Z 25) with 25%Q in *.
    pose proof (round_near (Float.mul d (Float.of_int 25))) as [R1 R2].
    set (nv := Py.round _) in *.
    assert (inject_Z (m - 3) < inject_Z (4 * nv))%Q as Hlo.
    { replace (m - 3) with (m + -3) by lia. rewrite inject_Z_plus, inject_Z_mult.
      change (inject_Z (-3)) with (-3 # 1)%Q. change (inject_Z 4) with 4%Q.
      unfold Float.u in *. lra. }
    assert (inject_Z (4 * nv) < inject_Z (m + 3))%Q as Hhi.
    { rewrite inject_Z_plus, inject_Z_mult.
      change (inject_Z 3) with 3%Q. change (inject_Z 4) with 4%Q.
      unfold Float.u in *. lra. }
    rewrite <- Zlt_Qlt in Hlo, Hhi. lia.
Qed.

(** The windows of a pass reach the end of the aligned audio. *)
Lemma passes_reach_end (a v duration : Z) :
  0 ≤ a < 2 ^ 40 → 0 ≤ v < 2 ^ 40 → 0 < duration < 2 ^ 31 →
  let d := Qmin (Float.truediv a 100) (Float.truediv v 25) in
  let batch_size := Py.ceil (Float.div d (Float.of_int duration)) in
  0 ≤ batch_size ∧ Z.min a (4 * v) ≤ batch_size * duration * 100.
Proof.
  intros Ha Hv Hdur d batch_size. set (m := Z.min a (4 * v)).
  destruct (duration_close a v) as [H1 H2]; [lia..|].
  destruct (duration_range a v) as (Hd0 & Hz & Hp); [lia..|].
  fold d m in H1, H2. fold d m in Hd0, Hz, Hp.
  assert (0 ≤ m < 2 ^ 42) as Hm by (unfold m; lia).
  assert (0 <= inject_Z m)%Q as Hm0 by (rewrite <- (Zle_Qle 0); lia).
  assert (inject_Z m <= inject_Z (2 ^ 42))%Q as Hm1 by (rewrite <- Zle_Qle; lia).
  change (inject_Z (2 ^ 42)) with (4398046511104 # 1)%Q in Hm1.
  assert (0 < inject_Z duration)%Q as Hdq by (rewrite <- (Zlt_Qlt 0); lia).
  assert (inject_Z duration <= inject_Z (2 ^ 31))%Q as Hdq' by (rewrite <- Zle_Qle; lia).
  change (inject_Z (2 ^ 31)) with (2147483648 # 1)%Q in Hdq'.
  assert (¬ inject_Z duration == 0)%Q as Hne
    by (intros E; rewrite E in Hdq; by apply Qlt_irrefl in Hdq).
  set (x := (d / Float.of_int duration)%Q).
  assert (x * inject_Z duration == d)%Q as Ex.
  { unfold x. rewrite (of_int_exact duration) by lia. field. done. }
  assert (0 <= x)%Q as Hx0.
  { unfold x. rewrite (of_int_exact duration) by lia. apply Qle_shift_div_l; [done|lra]. }
  destruct (b64_near x) as [B1 B2].
  { unfold x. rewrite (of_int_exact duration) by lia.
    destruct (decide (m = 0)) as [E|E].
    - left. rewrite (Hz E). field. done.
    - right. apply Qle_shift_div_l; [done|].
      assert (1 # 200 <= d)%Q by (apply Hp; lia). lra. }
  unfold batch_size, Float.div, Py.ceil. fold x.
  pose proof (Qle_ceiling (Float.b64 x)) as Hc.
  set (b := Qceiling (Float.b64 x)) in *.
  assert (0 <= inject_Z b)%Q as Hb0 by (unfold Float.u in *; lra).
  split; [by rewrite <- (Zle_Qle 0) in Hb0|].
  assert (x * (1 - Float.u) * inject_Z duration <= inject_Z b * inject_Z duration)%Q as Hbd.
  { apply Qmult_le_compat_r; [lra|by apply Qlt_le_weak]. }
  assert (x * (1 - Float.u) * inject_Z duration == d * (1 - Float.u))%Q as E1.
  { rewrite <- Ex. ring. }
  rewrite E1 in Hbd.
  assert (inject_Z (m - 1) < inject_Z (b * duration * 100))%Q as Hlt.
  { replace (m - 1) with (m + -1) by lia. rewrite inject_Z_plus, !inject_Z_mult.
    change (inject_Z (-1)) with (-1 # 1)%Q. change (inject_Z 100) with 100%Q.
    unfold Float.u in *. lra. }
  rewrite <- Zlt_Qlt in Hlt. lia.
Qed.

End Binary64.

(** *** The alignment *)

Section Align.

Local Open Scope Z_scope.

Context {A V : Type}.

(** At 218 MFCC rows and 55 frames the duration is the float 2.18, whose
    product by 25 is the float just above 54.5: all 55 frames are kept. *)
Lemma align_218_rows_55_frames :
  let '(length, audio, video) := align (replicate 218 ()) (replicate 55 ()) in
  (length == 4908923593833841 # 2251799813685248)%Q
  ∧ (Float.mul length (Float.of_int 25) == 7670193115365377 # 140737488355328)%Q
  ∧ Py.len audio = 218 ∧ Py.len video = 55.
Proof. by vm_compute. Qed.

Lemma align_cut (audio_feature : list A) (video_feature : list V) :
  Py.len audio_feature < 2 ^ 40 → Py.len video_feature < 2 ^ 40 →
  let d := Qmin (Float.truediv (Py.len audio_feature) 100)
                (Float.truediv (Py.len video_feature) 25) in
  let audioLen := Py.round (Float.mul d (Float.of_int 100)) in
  let videoLen := Py.round (Float.mul d (Float.of_int 25)) in
  let m := Z.min (Py.len audio_feature) (4 * Py.len video_feature) in
  align audio_feature video_feature
  = (d, take (Z.to_nat audioLen) audio_feature, take (Z.to_nat videoLen) video_feature)
  ∧ Py.len (take (Z.to_nat audioLen) audio_feature) = audioLen
  ∧ Py.len (take (Z.to_nat videoLen) video_feature) = videoLen
  ∧ audioLen = m
  ∧ m - 2 ≤ 4 * videoLen ≤ m + 2.
Proof.
  intros Ha Hv d audioLen videoLen m.
  assert (0 ≤ Py.len audio_feature) as Ha0 by (unfold Py.len; lia).
  assert (0 ≤ Py.len video_feature) as Hv0 by (unfold Py.len; lia).
  destruct (align_counts (Py.len audio_feature) (Py.len video_feature)) as [Hna Hnv];
    [lia..|].
  fold d audioLen videoLen m in Hna, Hnv.
  assert (0 ≤ audioLen ≤ Py.len audio_feature) as Hab by (unfold m in *; lia).
  assert (0 ≤ videoLen ≤ Py.len video_feature) as Hvb by (unfold m in *; lia).
  unfold Py.len in Hab, Hvb.
  split; [|split; [|split; [|split]]]; try done.
  - unfold align. fold d audioLen videoLen. by rewrite !slice_prefix by lia.
  - unfold Py.len. rewrite length_take. lia.
  - unfold Py.len. rewrite length_take. lia.
Qed.


End Align.


(** *** The order of the passes does not matter *)

Section PassOrder.

Local Open Scope Z_scope.

Lemma round_Qeq q q' : (q == q')%Q → Py.round q = Py.round q'.
Proof.
  intros H. unfold Py.round; cbn zeta.
  rewrite (Qfloor_comp _ _ H).
  assert ((q - inject_Z (Qfloor q') ?= 1 # 2)%Q = (q' - inject_Z (Qfloor q') ?= 1 # 2)%Q)
    as -> by (by rewrite H).
  done.
Qed.

Lemma round1_Qeq q q' : (q == q')%Q → Py.round1 q = Py.round1 q'.
Proof.
  intros H. unfold Py.round1. f_equal. f_equal. apply round_Qeq. by rewrite H.
Qed.

Lemma zip_with_Qplus_proper x s s' :
  Forall2 Qeq s s' → Forall2 Qeq (zip_with Qplus x s) (zip_with Qplus x s').
Proof.
  intros H. revert x. induction H as [|a b s s' Hab _ IH]; intros [|c x]; cbn;
    constructor; [by rewrite Hab|apply IH].
Qed.

Lemma zip_with_Qplus_swap x y s :
  Forall2 Qeq (zip_with Qplus x (zip_with Qplus y s))
              (zip_with Qplus y (zip_with Qplus x s)).
Proof.
  revert x y. induction s as [|c s IH]; intros [|a x] [|b y]; cbn; try constructor.
  - ring.
  - apply IH.
Qed.

Lemma Forall2_Qeq_refl l : Forall2 Qeq l l.
Proof. induction l; constructor; [reflexivity|done]. Qed.

Lemma Forall2_Qeq_trans l1 l2 l3 :
  Forall2 Qeq l1 l2 → Forall2 Qeq l2 l3 → Forall2 Qeq l1 l3.
Proof.
  intros H. revert l3. induction H as [|a b l1 l2 Hab _ IH]; intros l3 H3;
    inversion H3; subst; constructor; [by etransitivity|by apply IH].
Qed.

Lemma column_sums_perm n rows rows' :
  rows ≡ₚ rows' → Forall2 Qeq (column_sums n rows) (column_sums n rows').
Proof.
  unfold column_sums. induction 1 as [|x l l' _ IH|x y l|l1 l2 l3 _ IH1 _ IH2]; cbn.
  - apply Forall2_Qeq_refl.
  - by apply zip_with_Qplus_proper.
  - apply zip_with_Qplus_swap.
  - by eapply Forall2_Qeq_trans.
Qed.

(** [mean_axis0] succeeds exactly on a non-empty stack of rows of one
    length. *)
Lemma mean_axis0_uniform rows n :
  rows ≠ [] → Forall (λ r, length r = n) rows →
  mean_axis0 rows
  = Done ((λ s, s / inject_Z (Py.len rows))%Q <$> column_sums n rows).
Proof.
  destruct rows as [|row rows]; [done|]. intros _ [Hr Hrows]%Forall_cons.
  unfold mean_axis0.
  assert (forallb (λ r, (length r =? length row)%nat) rows = true) as ->.
  { apply forallb_forall. intros r Hin. apply Nat.eqb_eq.
    rewrite Forall_forall in Hrows. rewrite Hr. apply Hrows.
    by apply list_elem_of_In. }
  by rewrite Hr.
Qed.

Lemma mean_axis0_ragged rows :
  (∀ n, ¬ Forall (λ r, length r = n) rows) → mean_axis0 rows = Raised ValueError.
Proof.
  destruct rows as [|row rows]; [done|]. intros H. unfold mean_axis0.
  destruct (forallb _ rows) eqn:E; [|done].
  exfalso. apply (H (length row)). constructor; [done|].
  apply Forall_forall. intros r Hin. rewrite forallb_forall in E.
  apply Nat.eqb_eq, E. by apply list_elem_of_In.
Qed.

Lemma round1_means_perm (k : Z) l l' :
  Forall2 Qeq l l' →
  (λ s, Py.round1 (s / inject_Z k)%Q) <$> l = (λ s, Py.round1 (s / inject_Z k)%Q) <$> l'.
Proof.
  induction 1 as [|a b l l' Hab _ IH]; cbn; [done|].
  f_equal; [|done]. apply round1_Qeq. by rewrite Hab.
Qed.

Context {A V EmbedA EmbedV Out : Type}.
Variable forward_audio_frontend : list A → EmbedA.
Variable forward_visual_frontend : list V → EmbedV.
Variable forward_cross_attention : EmbedA → EmbedV → EmbedA * EmbedV.
Variable forward_audio_visual_backend : EmbedA → EmbedV → Out.
Variable lossAV_forward : Out → list Q.

(** The rounded mean over the passes is the same in whatever order the
    durations are iterated, so the unspecified iteration order of a Python
    set does not show in the scores. *)
Lemma evaluate_over_perm durations durations' audio_feature video_feature :
  durations ≡ₚ durations' →
  evaluate_over forward_audio_frontend forward_visual_frontend forward_cross_attention
                forward_audio_visual_backend lossAV_forward
                durations audio_feature video_feature
  = evaluate_over forward_audio_frontend forward_visual_frontend forward_cross_attention
                forward_audio_visual_backend lossAV_forward
                durations' audio_feature video_feature.
Proof.
  intros Hp. unfold evaluate_over.
  destruct (align audio_feature video_feature) as [[d a] v].
  set (f := duration_scores _ _ _ _ _ d a v).
  assert (f <$> durations ≡ₚ f <$> durations') as Hrows by (by apply fmap_Permutation).
  generalize dependent (f <$> durations'). generalize (f <$> durations).
  intros rows rows' Hrows.
  destruct (decide (rows = [])) as [->|Hne].
  { apply Permutation_nil_l in Hrows as ->. done. }
  assert (rows' ≠ []) as Hne'.
  { intros ->. by apply Permutation_nil_r in Hrows. }
  set (n := length (default [] (head rows))).
  destruct (decide (Forall (λ r, length r = n) rows)) as [Hn|Hr].
  - rewrite (mean_axis0_uniform rows n), (mean_axis0_uniform rows' n);
      [|done|by rewrite <- Hrows|done|done].
    cbn. f_equal. rewrite <- !list_fmap_compose.
    unfold Py.len. rewrite (Permutation_length Hrows).
    apply (round1_means_perm (Z.of_nat (length rows'))).
    by apply column_sums_perm.
  - assert (∀ m, ¬ Forall (λ r, length r = m) rows) as Hall.
    { intros m Hm. apply Hr. destruct rows as [|row rest]; [done|].
      subst n. cbn. apply Forall_cons in Hm as Hm'. destruct Hm' as [<- _]. done. }
    rewrite !mean_axis0_ragged; [done|..].
    + intros m Hm. apply (Hall m). by rewrite Hrows.
    + done.
Qed.

Lemma duration_set_spec d : d ∈ duration_set ↔ 1 ≤ d ≤ 6.
Proof.
  unfold duration_set. rewrite !elem_of_union, !elem_of_singleton. lia.
Qed.

Lemma duration_set_passes : elements duration_set ≡ₚ [1; 2; 3; 4; 5; 6].
Proof.
  apply NoDup_Permutation; [apply NoDup_elements| |].
  - refine (bool_decide_unpack _ _). by vm_compute.
  - intros x. rewrite elem_of_elements, duration_set_spec.
    rewrite !elem_of_cons, elem_of_nil. lia.
Qed.

(** On every input the loop of [evaluate_network] makes the six passes of
    the durations 1 to 6. *)
Lemma evaluate_file_six_passes audio_feature video_feature :
  evaluate_file forward_audio_frontend forward_visual_frontend forward_cross_attention
                forward_audio_visual_backend lossAV_forward audio_feature video_feature
  = evaluate_over forward_audio_frontend forward_visual_frontend forward_cross_attention
                forward_audio_visual_backend lossAV_forward
                [1; 2; 3; 4; 5; 6] audio_feature video_feature.
Proof. apply evaluate_over_perm, duration_set_passes. Qed.

End PassOrder.

Section Ensemble.

Local Open Scope Z_scope.

(** C1. [duration_set] is written with braces, so the repeats collapse: on
    every input the loop runs the six passes of the durations 1 to 6, not
    eleven.  On a two-second crop, with a model that scores a window by its
    duration, the code returns 1.8 on every frame, where the mean over the
    eleven durations of the specification is 1.7. *)
Theorem six_passes_not_eleven :
  let model_evaluate := evaluate_file length length pair pair
                    (λ p : nat * nat, replicate p.2 (inject_Z (Z.of_nat p.1) / 100)%Q) in
  let spec_evaluate := spec_evaluate_file length length pair pair
                    (λ p : nat * nat, replicate p.2 (inject_Z (Z.of_nat p.1) / 100)%Q) in
  let audio := replicate 200 () in
  let video := replicate 50 () in
  size duration_set = 6%nat
  ∧ length (elements duration_set) ≠ length spec_duration_multiset
  ∧ (∀ (A V EmbedA EmbedV Out : Type) (audio_frontend : list A → EmbedA)
       (visual_frontend : list V → EmbedV)
       (cross_attention : EmbedA → EmbedV → EmbedA * EmbedV)
       (backend : EmbedA → EmbedV → Out) (loss : Out → list Q)
       (audio_feature : list A) (video_feature : list V),
       evaluate_file audio_frontend visual_frontend cross_attention backend loss
                     audio_feature video_feature
       = evaluate_over audio_frontend visual_frontend cross_attention backend loss
                       [1; 2; 3; 4; 5; 6] audio_feature video_feature)
  ∧ model_evaluate audio video = Done (replicate 50 (18 # 10)%Q)
  ∧ spec_evaluate audio video = Done (replicate 50 (17 # 10)%Q).
Proof.
  cbv zeta. split; [by vm_compute|]. split; [by vm_compute|].
  split; [intros; apply evaluate_file_six_passes|].
  split; vm_compute; reflexivity.
Qed.

End Ensemble.

(** ** Score smoothing *)

Import Visualization.

Section Smoothing.

Local Open Scope Z_scope.

(** The items of a slice with bounds in order and in range. *)
Lemma slice_lookup {A} (l : list A) lo hi (k : nat) :
  0 ≤ lo → 0 ≤ hi ≤ Py.len l →
  Py.slice l lo hi !! k
  = if decide (lo + Z.of_nat k < hi) then l !! Z.to_nat (lo + Z.of_nat k) else None.
Proof.
  unfold Py.slice, Py.slice_bound, Py.len. intros Hlo Hhi. cbn zeta.
  destruct (lo <? 0) eqn:E1; [lia|]. destruct (hi <? 0) eqn:E2; [lia|].
  rewrite (Z.min_l hi) by lia.
  case_decide as Hk.
  - rewrite Z.min_l by lia. rewrite lookup_take_lt by lia.
    rewrite lookup_drop. f_equal. lia.
  - destruct (decide (lo ≤ Z.of_nat (length l))).
    + rewrite Z.min_l by lia. apply lookup_take_ge. lia.
    + rewrite Z.min_r by lia. apply lookup_take_ge. lia.
Qed.

Lemma window_empty_score fidx : window [] fidx = [].
Proof. unfold window, Py.slice. by rewrite drop_nil, take_nil. Qed.

(** C7. The displayed score at local index [i] is the mean of the slice
    [score[max(i-2,0) : min(i+3, len(score)-1)]], whose items are those at
    the indices from the lower bound up to, and not including, the upper
    bound.  On a series of five, index 0 averages indices 0, 1, 2 and the
    last index averages indices 2 and 3, leaving index 4 out. *)
Theorem smoothed_is_mean_of_half_open_window (score : list Q) (i : nat) :
  let lo := Z.max (Z.of_nat i - 2) 0 in
  let hi := Z.min (Z.of_nat i + 3) (Py.len score - 1) in
  smoothed score (Z.of_nat i) = Py.mean (window score (Z.of_nat i))
  ∧ (∀ k : nat,
       window score (Z.of_nat i) !! k
       = if decide (lo + Z.of_nat k < hi)
         then score !! Z.to_nat (lo + Z.of_nat k) else None)
  ∧ (∀ a b c d e : Q,
       let five := [a; b; c; d; e] in
       window five 0 = [a; b; c]
       ∧ window five 4 = [c; d]
       ∧ (∃ s, smoothed five 0 = Some s ∧ (s == (a + b + c) / 3)%Q)
       ∧ (∃ s, smoothed five 4 = Some s ∧ (s == (c + d) / 2)%Q)).
Proof.
  intros lo hi. split; [done|]. split.
  - intros k. destruct score as [|s0 score].
    + rewrite window_empty_score. subst lo hi. unfold Py.len. cbn [length].
      rewrite decide_False by lia. done.
    + unfold window. fold lo hi. apply slice_lookup; subst lo hi; unfold Py.len;
        cbn [length]; lia.
  - intros a b c d e five. split; [done|]. split; [done|].
    split.
    + exists ((a + (b + (c + 0))) / 3)%Q. split; [reflexivity|field].
    + exists ((c + (d + 0)) / 2)%Q. split; [reflexivity|field].
Qed.

End Smoothing.

(** ** Clean-up of the working directory *)

Import Pipeline.

Section CleanUp.

Context {Scenes Faces Tracks VideoTracks Scores Device Weights Detector : Type}.

Variable save_path : list string.

Variable extract_video extract_audio extract_frames : io unit.
Variable scenes_detect : io Scenes.
Variable detect_faces : io Faces.
Variable track_faces : Scenes → Faces → io Tracks.
Variable video_tracks : Tracks → io VideoTracks.
Variable face_processor_save_results : VideoTracks → io unit.
Variable evaluate_network : io Scores.
Variable speaker_detector_save_results : Scores → io unit.
Variable visualization : Scores → VideoTracks → io unit.

Variable resolve_device : io Device.
Variable hf_hub_download : io Weights.
Variable new_ActiveSpeakerDetector : Weights → io Detector.

Lemma rmtree_gone fs : exists_ save_path (rmtree save_path fs) = false.
Proof.
  unfold exists_, rmtree. apply bool_decide_eq_false.
  intros (q & Hq & Hp). apply elem_of_filter in Hq as [Hn _]. by apply Hn.
Qed.

Lemma cleanup_cache_gone fs :
  ∃ fs', _cleanup_cache save_path fs = (inr (), fs') ∧ exists_ save_path fs' = false.
Proof.
  unfold _cleanup_cache. destruct (exists_ save_path fs) eqn:E.
  - eexists. split; [done|]. apply rmtree_gone.
  - eexists. split; [done|]. done.
Qed.

(** The handler of both [try] blocks: it deletes the working directory and
    raises the exception again. *)
Lemma handler_cleans {A} (e : exn) fs :
  ∃ fs', bind (_cleanup_cache save_path) (λ _, raise (A:=A) e) fs = (inl e, fs')
         ∧ exists_ save_path fs' = false.
Proof.
  unfold bind. destruct (cleanup_cache_gone fs) as (fs' & -> & Hg).
  exists fs'. done.
Qed.

Local Abbreviation the_stages :=
  (stages extract_video extract_audio extract_frames scenes_detect detect_faces
          track_faces video_tracks face_processor_save_results evaluate_network
          speaker_detector_save_results visualization).
Local Abbreviation the_run :=
  (run save_path extract_video extract_audio extract_frames scenes_detect detect_faces
       track_faces video_tracks face_processor_save_results evaluate_network
       speaker_detector_save_results visualization).
Local Abbreviation the_init :=
  (__init__ save_path resolve_device hf_hub_download new_ActiveSpeakerDetector).

(** C9. When the stages of [run] raise, and when the construction inside the
    [try] of [__init__] raises, the same exception reaches the caller and
    the working directory no longer exists; and every run that ends with an
    exception ends without the working directory. *)
Theorem failure_deletes_working_directory :
  (∀ fs e fs1,
     the_stages fs = (inl e, fs1) →
     ∃ fs', the_run fs = (inl e, fs') ∧ exists_ save_path fs' = false)
  ∧ (∀ fs e fs', the_run fs = (inl e, fs') → exists_ save_path fs' = false)
  ∧ (∀ fs device fs0 weights fs1 e fs2,
       resolve_device fs = (inr device, fs0) →
       hf_hub_download fs0 = (inr weights, fs1) →
       construct new_ActiveSpeakerDetector weights (_setup_paths save_path fs1).2
       = (inl e, fs2) →
       ∃ fs', the_init fs = (inl e, fs') ∧ exists_ save_path fs' = false).
Proof.
  split; [|split].
  - intros fs e fs1 Hs. unfold run, try_except. rewrite Hs.
    apply handler_cleans.
  - intros fs e fs'. unfold run, try_except.
    destruct (stages _ _ _ _ _ _ _ _ _ _ _ fs) as [[e1|[]] fs1]; [|done].
    destruct (handler_cleans (A:=unit) e1 fs1) as (fs2 & -> & Hg).
    by intros [= <- <-].
  - intros fs device fs0 weights fs1 e fs2 Hd Hw Hc.
    unfold __init__. unfold bind at 1. rewrite Hd. unfold bind at 1. rewrite Hw.
    unfold bind at 1.
    destruct (_setup_paths save_path fs1) as [[e1|[]] fs1'] eqn:Hsetup.
    + exfalso. revert Hsetup. unfold _setup_paths, bind.
      destruct (cleanup_cache_gone fs1) as (fs1'' & -> & _). done.
    + unfold try_except. cbn in Hc. rewrite Hc. apply handler_cleans.
Qed.

End CleanUp.

Lemma failure_deletes_working_directory_witness :
  let save_path := ["cache"; "clip-2026-11-04T10:00:00"] in
  let writes (name : string) : io unit :=
    λ fs, (inr (), {[ save_path ++ ["pyavi"; name] ]} ∪ fs) in
  let failing : io unit := raise (Exception "scene detection failed") in
  ∃ fs',
    run save_path (writes "video.avi") (writes "audio.wav") (writes "000001.jpg")
        failing (ret ()) (λ _ _, ret ()) (λ _, ret ()) (λ _, ret ())
        (ret ()) (λ _, ret ()) (λ _ _, ret ()) ∅
    = (inl (Exception "scene detection failed"), fs')
    ∧ exists_ save_path fs' = false.
Proof.
  intros save_path writes failing.
  eapply (proj1 (failure_deletes_working_directory (Device:=unit) (Weights:=unit)
                   (Detector:=unit) save_path
                   (writes "video.avi") (writes "audio.wav") (writes "000001.jpg")
                   failing (ret ()) (λ _ _, ret ()) (λ _, ret ()) (λ _, ret ())
                   (ret ()) (λ _, ret ()) (λ _ _, ret ())
                   (ret ()) (ret ()) (λ _, ret ()))).
  reflexivity.
Defined.

(** * Further properties of the code *)

(** ** Interpolation never leaves the samples *)

Section InterpBounds.

Local Open Scope Z_scope.

Lemma insert_point_perm p l : insert_point p l ≡ₚ p :: l.
Proof.
  induction l as [|q l IH]; cbn; [done|].
  destruct (p.1 <=? q.1); [done|]. rewrite IH. apply Permutation_swap.
Qed.

Lemma sort_points_perm l : sort_points l ≡ₚ l.
Proof.
  unfold sort_points. induction l as [|p l IH]; cbn; [done|].
  by rewrite insert_point_perm, IH.
Qed.

Lemma insert_point_sorted p l :
  StronglySorted (λ a b : Z * Q, a.1 ≤ b.1) l →
  StronglySorted (λ a b : Z * Q, a.1 ≤ b.1) (insert_point p l).
Proof.
  induction 1 as [|q l Hs IH Hq]; cbn; [repeat constructor|].
  destruct (p.1 <=? q.1) eqn:E.
  - apply Z.leb_le in E. constructor; [by constructor|].
    constructor; [done|]. eapply Forall_impl; [done|]. cbn. lia.
  - apply Z.leb_gt in E. constructor; [done|].
    rewrite insert_point_perm. constructor; [lia|done].
Qed.

Lemma sort_points_sorted l : StronglySorted (λ a b : Z * Q, a.1 ≤ b.1) (sort_points l).
Proof.
  unfold sort_points. induction l as [|p l IH]; cbn; [constructor|].
  by apply insert_point_sorted.
Qed.

(** The evaluation succeeds at every abscissa between the first and the last
    point. *)
Lemma interp_at_within pts x first final :
  head pts.*1 = Some first → last pts.*1 = Some final →
  first ≤ x ≤ final → is_Some (interp_at pts x).
Proof.
  revert first. induction pts as [|[xa ya] [|[xb yb] pts] IH]; intros first; [done| |].
  - cbn. intros [= <-] [= <-] Hx. rewrite (proj2 (Z.eqb_eq x xa)) by lia. eauto.
  - intros [= <-]. rewrite !fmap_cons, last_cons_cons. intros Hl Hx.
    cbn [interp_at]. destruct (xb <=? x) eqn:E.
    + apply Z.leb_le in E. apply (IH xb); [done|done|lia].
    + destruct (x <? xa) eqn:E2; [lia|]. destruct (x =? xa); eauto.
Qed.

Lemma sorted_head_least (pts : list (Z * Q)) first p :
  StronglySorted (λ a b : Z * Q, a.1 ≤ b.1) pts →
  head pts.*1 = Some first → p ∈ pts → first ≤ p.1.
Proof.
  destruct 1 as [|q l Hs Hq]; [done|]. cbn. intros [= <-].
  intros [->|Hin]%elem_of_cons; [lia|].
  rewrite Forall_forall in Hq. by apply Hq.
Qed.

Lemma sorted_last_greatest (pts : list (Z * Q)) final p :
  StronglySorted (λ a b : Z * Q, a.1 ≤ b.1) pts →
  last pts.*1 = Some final → p ∈ pts → p.1 ≤ final.
Proof.
  intros Hs. revert p. induction Hs as [|q l Hs IH Hq]; intros p; [done|].
  destruct l as [|q' l].
  - cbn. intros [= <-] ->%list_elem_of_singleton. lia.
  - rewrite !fmap_cons, last_cons_cons. intros Hl [->|Hin]%elem_of_cons.
    + apply Forall_cons in Hq as [Hqq' _].
      specialize (IH q' Hl ltac:(left)). lia.
    + by apply IH.
Qed.

(** [interp1d] accepts every query that lies between two of the given
    abscissae, in whatever order they are given. *)
Lemma interp1d_within x y x_new :
  length x = length y →
  Forall (λ v, ∃ a b, a ∈ x ∧ b ∈ x ∧ a ≤ v ≤ b) x_new →
  ∃ r, interp1d x y x_new = Done r.
Proof.
  intros Hlen. unfold interp1d.
  set (pts := sort_points (zip x y)).
  assert (Hkeys : ∀ a, a ∈ x → ∃ p, p ∈ pts ∧ p.1 = a).
  { intros a Ha. apply list_elem_of_lookup in Ha as [i Hi].
    destruct (lookup_lt_is_Some_2 y i) as [b Hb].
    { rewrite <- Hlen. by eapply lookup_lt_Some. }
    exists (a, b). split; [|done]. unfold pts. rewrite sort_points_perm.
    apply list_elem_of_lookup. exists i. rewrite lookup_zip_with. by rewrite Hi, Hb. }
  induction 1 as [|v x_new (a & b & Ha & Hb & Hv) _ IH]; cbn; [eauto|].
  destruct IH as [r ->].
  destruct (Hkeys a Ha) as (pa & Hpa & <-). destruct (Hkeys b Hb) as (pb & Hpb & <-).
  destruct (head pts.*1) as [first|] eqn:Hh.
  2:{ destruct pts; [by apply elem_of_nil in Hpa|done]. }
  destruct (last pts.*1) as [final|] eqn:Hl.
  2:{ apply last_None in Hl. destruct pts; [by apply elem_of_nil in Hpa|done]. }
  pose proof (sorted_head_least pts first pa (sort_points_sorted _) Hh Hpa).
  pose proof (sorted_last_greatest pts final pb (sort_points_sorted _) Hl Hpb).
  destruct (interp_at_within pts v first final Hh Hl) as [q ->]; [lia|].
  cbn. eauto.
Qed.

End InterpBounds.

(** ** What a candidate track is made of *)

Section Provenance.

Local Open Scope Z_scope.

Variable cfg : args.

Lemma linked_snoc track prev face :
  linked cfg track → last track = Some prev →
  frame face - frame prev ≤ num_failed_det cfg → joins face prev = true →
  linked cfg (track ++ [face]).
Proof.
  intros Hl Hp Hg Hj i a b Ha Hb.
  apply last_Some in Hp as [track' ->].
  destruct (decide (S i < length (track' ++ [prev]))%nat) as [Hlt|Hge].
  - rewrite lookup_app_l in Ha, Hb by lia. by apply (Hl i).
  - assert (i = length track') as ->.
    { apply lookup_lt_Some in Hb. rewrite !length_app in *. cbn in *. lia. }
    rewrite lookup_app_l in Ha by (rewrite length_app; cbn; lia).
    rewrite lookup_app_r in Ha by lia. rewrite Nat.sub_diag in Ha.
    rewrite lookup_app_r in Hb by (rewrite length_app; cbn; lia).
    rewrite length_app in Hb. cbn in Hb.
    replace (S (length track') - (length track' + 1))%nat with 0%nat in Hb by lia.
    cbn in Ha, Hb. by injection Ha as <-; injection Hb as <-.
Qed.

Lemma remove_sublist (l : list detection) i x :
  l !! i = Some x → Py.remove detection_eqb x l `sublist_of` l.
Proof.
  intros Hi. destruct (remove_is_delete l i x Hi) as (j & _ & ->).
  apply sublist_delete.
Qed.

Lemma for_face_run_provenance i track frameFaces r :
  for_face_run cfg i track frameFaces r →
  r.2 `sublist_of` frameFaces
  ∧ (∀ d, d ∈ r.1 → d ∈ track ∨ d ∈ frameFaces)
  ∧ (linked cfg track → linked cfg r.1).
Proof.
  induction 1 as [ i track frameFaces Hi
                 | i track frameFaces face r Hi Hl Hrun IH
                 | i track frameFaces face prev r Hi Hl Hgap Hj Hrun IH
                 | i track frameFaces face prev r Hi Hl Hgap Hj Hrun IH
                 | i track frameFaces face prev Hi Hl Hgap ]; cbn.
  - eauto.
  - destruct IH as (Hs & Hin & Hlk). pose proof (remove_sublist _ _ _ Hi) as Hsub.
    split; [by etransitivity|]. split.
    + intros d [[Hd| ->%list_elem_of_singleton]%elem_of_app|Hd]%Hin; [by left| |].
      * right. by eapply list_elem_of_lookup_2.
      * right. by eapply elem_of_sublist.
    + intros _. apply Hlk. apply last_None in Hl as ->.
      intros [|k] a b Ha Hb; done.
  - destruct IH as (Hs & Hin & Hlk). pose proof (remove_sublist _ _ _ Hi) as Hsub.
    split; [by etransitivity|]. split.
    + intros d [[Hd| ->%list_elem_of_singleton]%elem_of_app|Hd]%Hin; [by left| |].
      * right. by eapply list_elem_of_lookup_2.
      * right. by eapply elem_of_sublist.
    + intros Hlt. apply Hlk. by eapply linked_snoc.
  - done.
  - eauto.
Qed.

Lemma for_frameFaces_provenance track sceneFaces track' sceneFaces' :
  for_frameFaces cfg track sceneFaces = Done (track', sceneFaces') →
  Forall2 sublist sceneFaces' sceneFaces
  ∧ (∀ d, d ∈ track' → d ∈ track ∨ d ∈ concat sceneFaces)
  ∧ (linked cfg track → linked cfg track')
  ∧ (length track ≤ length track')%nat.
Proof.
  revert track track' sceneFaces'.
  induction sceneFaces as [|frameFaces rest IH]; intros track track' sceneFaces';
    cbn [for_frameFaces].
  - intros [= <- <-]. split; [apply Forall2_nil_2|]. split; [by left|done].
  - destruct (for_face _ _ _ _ _) as [[track1 frameFaces1]|e|] eqn:Hf; cbn; [|done..].
    destruct (for_frameFaces _ _ _) as [[track2 rest2]|e|] eqn:Hr; cbn; [|done..].
    intros [= <- <-]. apply for_face_sound in Hf.
    pose proof (for_face_run_length _ _ _ _ _ Hf) as [_ Hgrow]. cbn in Hgrow.
    apply for_face_run_provenance in Hf as (Hs1 & Hin1 & Hl1). cbn in *.
    apply IH in Hr as (Hs2 & Hin2 & Hl2 & Hgrow2).
    split; [by constructor|]. split; [|split; [tauto|lia]].
    intros d [[Hd|Hd]%Hin1|Hd]%Hin2; [by left|right..];
      apply elem_of_app; [by left|by right].
Qed.

(** A pass that finds no candidate found every list empty. *)
Lemma for_frameFaces_nothing sceneFaces sceneFaces' :
  for_frameFaces cfg [] sceneFaces = Done ([], sceneFaces') →
  Forall (λ l, l = []) sceneFaces ∧ sceneFaces' = sceneFaces.
Proof.
  revert sceneFaces'. induction sceneFaces as [|frameFaces rest IH]; intros sceneFaces';
    cbn [for_frameFaces].
  - intros [= <-]. split; [constructor|done].
  - destruct (for_face _ _ _ _ _) as [[track1 frameFaces1]|e|] eqn:Hf; cbn; [|done..].
    destruct (for_frameFaces cfg track1 rest) as [[track2 rest2]|e|] eqn:Hr; cbn; [|done..].
    intros [= -> <-]. apply for_face_sound in Hf.
    apply for_frameFaces_provenance in Hr as Hgrow. destruct Hgrow as (_ & _ & _ & Hgrow).
    destruct track1; [|cbn in Hgrow; lia].
    destruct frameFaces as [|face frameFaces].
    + inversion Hf; subst; try done.
      apply IH in Hr as [Hall ->]. split; [by constructor|done].
    + exfalso. by eapply (for_face_run_seeded cfg (face :: frameFaces) face).
Qed.

End Provenance.

(** ** [track_shot] returns, and uses up the detections *)

Section Returns.

Local Open Scope Z_scope.

Variable cfg : args.

Lemma Forall_of_sublist {A} (P : A → Prop) (k l : list A) :
  k `sublist_of` l → Forall P l → Forall P k.
Proof.
  rewrite !Forall_forall. intros Hs H x Hx. apply H. by eapply elem_of_sublist.
Qed.

Lemma iou_returns a b :
  positive_area a → positive_area b →
  ∃ v, bb_intersection_over_union a b false = Done v.
Proof.
  intros Ha Hb. unfold bb_intersection_over_union; cbn zeta.
  pose proof (union_pos a b Ha Hb). rewrite div_Done by lia. eauto.
Qed.

Lemma for_face_returns fuel i track frameFaces :
  Forall (λ d, positive_area (bbox d)) track →
  Forall (λ d, positive_area (bbox d)) frameFaces →
  (length frameFaces ≤ fuel + i)%nat →
  ∃ r, for_face cfg fuel i track frameFaces = Done r.
Proof.
  revert i track frameFaces.
  induction fuel as [|fuel IH]; intros i track frameFaces Ht Hf Hlen; cbn [for_face].
  - rewrite lookup_ge_None_2 by lia. eauto.
  - destruct (frameFaces !! i) as [face|] eqn:Hi; [|eauto].
    pose proof (remove_length _ _ _ Hi) as Hr.
    assert (positive_area (bbox face)) as Hface.
    { rewrite Forall_lookup in Hf. by eapply Hf. }
    assert (Forall (λ d, positive_area (bbox d))
                   (Py.remove detection_eqb face frameFaces)) as Hf'.
    { eapply Forall_of_sublist; [|done]. by eapply remove_sublist. }
    assert (Forall (λ d, positive_area (bbox d)) (track ++ [face])) as Ht'.
    { apply Forall_app. split; [done|by apply Forall_singleton]. }
    destruct (last track) as [prev|] eqn:Hl.
    + destruct (frame face - frame prev <=? num_failed_det cfg); [|eauto].
      assert (positive_area (bbox prev)) as Hprev.
      { apply last_Some_elem_of in Hl. rewrite Forall_forall in Ht. by apply Ht. }
      destruct (iou_returns _ _ Hface Hprev) as [v ->]. cbn.
      destruct (Qltb iouThres v); apply IH; try done; lia.
    + apply IH; [done|done|lia].
Qed.

Lemma for_frameFaces_returns track sceneFaces :
  Forall (λ d, positive_area (bbox d)) track → sound_boxes sceneFaces →
  ∃ track' sceneFaces',
    for_frameFaces cfg track sceneFaces = Done (track', sceneFaces')
    ∧ Forall (λ d, positive_area (bbox d)) track' ∧ sound_boxes sceneFaces'.
Proof.
  unfold sound_boxes. revert track.
  induction sceneFaces as [|frameFaces rest IH]; intros track Ht Hs; cbn [for_frameFaces].
  - eauto.
  - apply Forall_cons in Hs as [Hf Hs].
    destruct (for_face_returns (length frameFaces) 0 track frameFaces Ht Hf)
      as [[track1 frameFaces1] Hrun]; [lia|].
    rewrite Hrun. cbn.
    apply for_face_sound, for_face_run_provenance in Hrun as (Hsub & Hin & _).
    cbn in Hsub, Hin.
    assert (Forall (λ d, positive_area (bbox d)) track1) as Ht1.
    { apply Forall_forall. intros d [Hd|Hd]%Hin.
      - rewrite Forall_forall in Ht. by apply Ht.
      - rewrite Forall_forall in Hf. by apply Hf. }
    destruct (IH track1 Ht1 Hs) as (track2 & rest2 & -> & Ht2 & Hs2). cbn.
    eexists _, _. split; [done|]. split; [done|].
    constructor; [|done]. by eapply Forall_of_sublist.
Qed.

(** The interpolation of a candidate is never refused: the frames asked for
    lie between its first and its last frame. *)
Lemma interpolate_track_returns track :
  track ≠ [] → ∃ emitted, interpolate_track cfg track = Done emitted.
Proof.
  intros Hne. unfold interpolate_track.
  destruct (head (frame <$> track)) as [first|] eqn:Hh.
  2:{ by destruct track. }
  destruct (last (frame <$> track)) as [final|] eqn:Hl.
  2:{ apply last_None in Hl. by destruct track. }
  cbn zeta.
  assert (Hq : ∀ y : list Q, length (frame <$> track) = length y →
    ∃ r, interp1d (frame <$> track) y (Py.arange first (final + 1)) = Done r).
  { intros y Hy. apply interp1d_within; [done|].
    apply Forall_forall. intros v Hv. unfold Py.arange in Hv.
    apply list_elem_of_lookup in Hv as [k Hk]. apply lookup_seqZ in Hk as [-> Hk].
    exists first, final. split; [|split; [|lia]].
    - apply head_Some_elem_of. done.
    - by apply last_Some_elem_of. }
  repeat match goal with
  | |- context [interp1d ?x ?y ?z] =>
      let r := fresh "r" in
      destruct (Hq y) as [r ->]; [by rewrite !length_fmap|]; cbn
  end.
  destruct (big_enough _ _); eauto.
Qed.

Lemma while_true_ends fuel sceneFaces tracks tracks' sceneFaces' :
  while_true cfg fuel sceneFaces tracks = Done (tracks', sceneFaces') →
  Forall (λ l, l = []) sceneFaces' ∧ length sceneFaces' = length sceneFaces.
Proof.
  revert sceneFaces tracks.
  induction fuel as [|fuel IH]; intros sceneFaces tracks; [done|].
  cbn [while_true].
  destruct (for_frameFaces _ _ _) as [[track sceneFaces1]|e|] eqn:Hp; cbn; [|done..].
  pose proof (for_frameFaces_length _ _ _ _ _ Hp) as [_ Hlen].
  destruct track as [|d track].
  - intros [= <- <-]. apply for_frameFaces_nothing in Hp as [Hall ->]. done.
  - destruct (_ <? _).
    + destruct (interpolate_track _ _) as [emitted|e|]; cbn; [|done..].
      intros [Hall Hl]%IH. split; [done|lia].
    + intros [Hall Hl]%IH. split; [done|lia].
Qed.

Lemma while_true_returns fuel sceneFaces tracks :
  sound_boxes sceneFaces → (length (concat sceneFaces) < fuel)%nat →
  ∃ tracks' sceneFaces', while_true cfg fuel sceneFaces tracks = Done (tracks', sceneFaces').
Proof.
  revert sceneFaces tracks.
  induction fuel as [|fuel IH]; intros sceneFaces tracks Hs Hlen; [lia|].
  cbn [while_true].
  destruct (for_frameFaces_returns [] sceneFaces) as (track & sceneFaces1 & Hp & _ & Hs1);
    [constructor|done|].
  rewrite Hp. cbn. destruct track as [|d track]; [eauto|].
  apply for_frameFaces_length in Hp as [Hp _]. cbn in Hp.
  destruct (_ <? _).
  - destruct (interpolate_track_returns (d :: track)) as [emitted ->]; [done|].
    cbn. apply IH; [done|lia].
  - apply IH; [done|lia].
Qed.

End Returns.

Section ShotTheorems.

Local Open Scope Z_scope.

Variable cfg : args.

Lemma all_nil_replicate (l : list (list detection)) n :
  Forall (λ x, x = []) l → length l = n → l = replicate n [].
Proof.
  intros H <-. induction H as [|x l -> _ IH]; cbn; [done|]. by rewrite <- IH.
Qed.

Lemma track_shot_rest
    (sceneFaces rest : list (list detection)) (tracks : list Track.t) :
  track_shot cfg sceneFaces = Done (tracks, rest) →
  rest = replicate (length sceneFaces) [].
Proof.
  unfold track_shot. intros [Hall Hlen]%while_true_ends. by apply all_nil_replicate.
Qed.

(** X1. When [track_shot] returns, every per-frame list it was given is
    empty: each detection of the shot has seeded or joined a candidate, and
    the caller's [face_detections] keeps none of them. *)
Theorem track_shot_uses_up_detections
    (sceneFaces rest : list (list detection)) (tracks : list Track.t) :
  track_shot cfg sceneFaces = Done (tracks, rest) →
  rest = replicate (length sceneFaces) [].
Proof. apply track_shot_rest. Qed.

Lemma track_shot_returns (sceneFaces : list (list detection)) :
  sound_boxes sceneFaces →
  ∃ tracks, track_shot cfg sceneFaces = Done (tracks, replicate (length sceneFaces) []).
Proof.
  intros Hs. unfold track_shot.
  destruct (while_true_returns cfg (S (length (concat sceneFaces))) sceneFaces [] Hs)
    as (tracks & rest & Hw); [lia|].
  exists tracks. rewrite Hw. f_equal. f_equal.
  by apply (track_shot_rest sceneFaces rest tracks).
Qed.

(** X2. On boxes of positive width and height [track_shot] returns: the
    IOU never divides by zero, the interpolation is never asked for a frame
    outside the candidate, and the loop ends. *)
Theorem track_shot_returns_on_sound_boxes (sceneFaces : list (list detection)) :
  sound_boxes sceneFaces →
  ∃ tracks, track_shot cfg sceneFaces = Done (tracks, replicate (length sceneFaces) []).
Proof. apply track_shot_returns. Qed.

Lemma elem_of_concat (ls : list (list detection)) d :
  d ∈ concat ls ↔ ∃ l, d ∈ l ∧ l ∈ ls.
Proof.
  induction ls as [|l ls IH]; cbn.
  - split; [by intros ?%elem_of_nil|by intros (? & _ & ?%elem_of_nil)].
  - rewrite elem_of_app, IH. split.
    + intros [Hd|(l' & Hd & Hl')]; [exists l|exists l']; (split; [done|]);
        [left|by right].
    + intros (l' & Hd & [->|Hl']%elem_of_cons); [by left|right; eauto].
Qed.

Lemma Forall2_sublist_concat (p' p : list (list detection)) d :
  Forall2 sublist p' p → d ∈ concat p' → d ∈ concat p.
Proof.
  induction 1 as [|l' l p' p Hl _ IH]; cbn; [done|].
  rewrite !elem_of_app. intros [Hd|Hd]; [left; by eapply elem_of_sublist|right; auto].
Qed.

Lemma Forall2_sublist_trans (a b c : list (list detection)) :
  Forall2 sublist a b → Forall2 sublist b c → Forall2 sublist a c.
Proof.
  intros H. revert c. induction H as [|x y a b Hxy _ IH]; intros c Hc;
    inversion Hc; subst; constructor; [by etransitivity|by apply IH].
Qed.

Lemma Forall2_sublist_refl (a : list (list detection)) : Forall2 sublist a a.
Proof. induction a; by constructor. Qed.

Lemma emitted_chain
    (sceneFaces rest : list (list detection)) (tracks : list Track.t) (t : Track.t) :
  track_shot cfg sceneFaces = Done (tracks, rest) →
  t ∈ tracks →
  ∃ track,
    interpolate_track cfg track = Done (Some t)
    ∧ (∀ d, d ∈ track → d ∈ concat sceneFaces)
    ∧ linked cfg track.
Proof.
  unfold track_shot. intros Hw Ht.
  assert (∀ p tr p',
    Forall2 sublist p sceneFaces →
    for_frameFaces cfg [] p = Done (tr, p') →
    Forall2 sublist p' sceneFaces
    ∧ ((∀ d, d ∈ tr → d ∈ concat sceneFaces) ∧ linked cfg tr)) as Hpass.
  { intros p tr p' Hp Hrun.
    apply for_frameFaces_provenance in Hrun as (Hs & Hin & Hl & _).
    split; [by eapply Forall2_sublist_trans|]. split.
    - intros d [Hd|Hd]%Hin; [by apply elem_of_nil in Hd|].
      by eapply Forall2_sublist_concat.
    - apply Hl. intros [|i] a b Ha Hb; done. }
  destruct (while_true_emitted cfg _ _ Hpass _ _ _ _ _
              (Forall2_sublist_refl sceneFaces) Hw t Ht)
    as [Hnil|(track & [Hin Hl] & _ & He)]; [by apply elem_of_nil in Hnil|].
  eauto.
Qed.

(** X3. Every track that [track_shot] returns interpolates a chain of
    detections of the shot: the candidate holds only detections that were in
    the lists, and each one but the first lies within [num_failed_det]
    frames of its predecessor and overlaps it by more than the threshold. *)
Theorem emitted_track_is_linked_chain
    (sceneFaces rest : list (list detection)) (tracks : list Track.t) (t : Track.t) :
  track_shot cfg sceneFaces = Done (tracks, rest) →
  t ∈ tracks →
  ∃ track,
    interpolate_track cfg track = Done (Some t)
    ∧ (∀ d, d ∈ track → d ∈ concat sceneFaces)
    ∧ linked cfg track.
Proof. apply emitted_chain. Qed.

(** X4. A track never leaves its shot: on lists indexed by frame from
    [base], every frame of an emitted track is one of the frames of the
    shot. *)
Theorem emitted_track_stays_in_shot (base : Z)
    (sceneFaces rest : list (list detection)) (tracks : list Track.t) (t : Track.t) (f : Z) :
  frame_indexed base sceneFaces →
  track_shot cfg sceneFaces = Done (tracks, rest) →
  t ∈ tracks → f ∈ Track.frame t →
  base ≤ f < base + Py.len sceneFaces.
Proof.
  intros Hidx Hw Ht Hf.
  destruct (emitted_chain _ _ _ _ Hw Ht) as (track & He & Hin & _).
  destruct (interpolate_track_Some cfg _ _ He)
    as (first & final & Hh & Hl & Hle & Hfr & _).
  assert (∀ d, d ∈ track → base ≤ frame d < base + Py.len sceneFaces) as Hrange.
  { intros d Hd%Hin. apply elem_of_concat in Hd as (l & Hdl & Hl').
    apply list_elem_of_lookup in Hl' as [k Hk].
    rewrite (Hidx k l d Hk Hdl). apply lookup_lt_Some in Hk. unfold Py.len. lia. }
  apply head_Some_elem_of, list_elem_of_fmap in Hh as (d0 & -> & Hd0).
  apply last_Some_elem_of, list_elem_of_fmap in Hl as (d1 & -> & Hd1).
  apply Hrange in Hd0, Hd1.
  rewrite Hfr in Hf. apply list_elem_of_lookup in Hf as [k Hk].
  apply lookup_seqZ in Hk as [-> Hk]. lia.
Qed.

End ShotTheorems.

Section ShotWitnesses.

Local Open Scope Z_scope.

Lemma track_shot_uses_up_detections_witness :
  let cfg := Args 2 10 1 in
  let sceneFaces := (λ f, [still_face f]) <$> seqZ 5 4 in
  [[]; []; []; []] = replicate (length sceneFaces) ([] : list detection).
Proof.
  intros cfg sceneFaces.
  apply (track_shot_uses_up_detections cfg sceneFaces [[]; []; []; []]
           [Track.Make [5; 6; 7; 8] (replicate 4 (QBox 0 0 10 10))
                       (replicate 4 (9 # 10)%Q)]).
  vm_compute. reflexivity.
Defined.

Lemma track_shot_returns_on_sound_boxes_witness :
  let cfg := Args 2 10 1 in
  let sceneFaces := [[still_face 0; still_face 0]; []; [still_face 2]] in
  ∃ tracks, track_shot cfg sceneFaces = Done (tracks, replicate (length sceneFaces) []).
Proof.
  intros cfg sceneFaces.
  apply (track_shot_returns_on_sound_boxes cfg sceneFaces).
  repeat constructor; cbn; lia.
Defined.

Lemma emitted_track_is_linked_chain_witness :
  let cfg := Args 2 10 1 in
  let sceneFaces := (λ f, [still_face f]) <$> seqZ 5 4 in
  let t := Track.Make [5; 6; 7; 8]
             (replicate 4 (QBox 0 0 10 10)) (replicate 4 (9 # 10)%Q) in
  ∃ track,
    interpolate_track cfg track = Done (Some t)
    ∧ (∀ d, d ∈ track → d ∈ concat sceneFaces)
    ∧ linked cfg track.
Proof.
  intros cfg sceneFaces t.
  apply (emitted_track_is_linked_chain cfg sceneFaces [[]; []; []; []] [t] t).
  - vm_compute. reflexivity.
  - apply list_elem_of_here.
Defined.

Lemma emitted_track_stays_in_shot_witness :
  let sceneFaces := (λ f, [still_face f]) <$> seqZ 5 4 in
  (5 ≤ 7 < 5 + Py.len sceneFaces)%Z.
Proof.
  intros sceneFaces.
  apply (emitted_track_stays_in_shot (Args 2 10 1) 5 sceneFaces [[]; []; []; []]
           [Track.Make [5; 6; 7; 8] (replicate 4 (QBox 0 0 10 10))
                       (replicate 4 (9 # 10)%Q)]
           (Track.Make [5; 6; 7; 8] (replicate 4 (QBox 0 0 10 10))
                       (replicate 4 (9 # 10)%Q)) 7).
  - intros [|[|[|[|k]]]] l d [= <-] Hd;
      apply list_elem_of_singleton in Hd as ->; reflexivity.
  - vm_compute. reflexivity.
  - apply list_elem_of_here.
  - cbn. do 2 apply list_elem_of_further. apply list_elem_of_here.
Defined.

End ShotWitnesses.

(** ** [track_faces] on the shared detection lists *)

Section TrackFacesStore.

Local Open Scope Z_scope.

Variable cfg : args.

Lemma slice_bound_range n i : 0 ≤ n → 0 ≤ Py.slice_bound n i ≤ n.
Proof. unfold Py.slice_bound. destruct (i <? 0) eqn:E; lia. Qed.

Lemma slice_length_le {A} (l : list A) lo hi :
  (Z.to_nat (Py.slice_bound (Py.len l) lo) + length (Py.slice l lo hi) ≤ length l)%nat.
Proof.
  unfold Py.slice; cbn zeta.
  pose proof (slice_bound_range (Py.len l) lo ltac:(unfold Py.len; lia)).
  rewrite length_take, length_drop. unfold Py.len in *. lia.
Qed.

Lemma write_back_length (store : list (list detection)) lo hi sceneFaces :
  length sceneFaces = length (Py.slice store lo hi) →
  length (write_back store lo sceneFaces) = length store.
Proof.
  intros Hlen. pose proof (slice_length_le store lo hi).
  unfold write_back; cbn zeta.
  rewrite !length_app, length_take, length_drop. lia.
Qed.

Lemma sound_boxes_slice store lo hi :
  sound_boxes store → sound_boxes (Py.slice store lo hi).
Proof. intros H. unfold Py.slice; cbn zeta. by apply Forall_take, Forall_drop. Qed.

Lemma sound_boxes_write_back store lo n :
  sound_boxes store → sound_boxes (write_back store lo (replicate n [])).
Proof.
  intros H. unfold write_back; cbn zeta. unfold sound_boxes.
  rewrite !Forall_app. split; [by apply Forall_take|]. split; [|by apply Forall_drop].
  apply Forall_replicate. constructor.
Qed.

Lemma track_faces_returns scenes store :
  sound_boxes store →
  ∃ tracks store',
    track_faces cfg scenes store = Done (tracks, store')
    ∧ sound_boxes store' ∧ length store' = length store.
Proof.
  revert store. induction scenes as [|s scenes IH]; intros store Hs; cbn [track_faces].
  - eauto.
  - destruct (_ <=? _); [|by apply IH].
    set (sl := Py.slice store (start_frame s) (end_frame s + 1)).
    destruct (track_shot_returns cfg sl) as [tracks ->];
      [by apply sound_boxes_slice|]. cbn.
    destruct (IH (write_back store (start_frame s) (replicate (length sl) [])))
      as (all_tracks & store' & -> & Hs' & Hlen); [by apply sound_boxes_write_back|].
    cbn. eexists _, _. split; [done|]. split; [done|].
    rewrite Hlen. apply (write_back_length _ _ (end_frame s + 1)).
    by rewrite length_replicate.
Qed.

(** X6. On the detections that [detect_faces] records, [track_faces]
    returns for every scene list: no division by zero in the IOU, no refused
    interpolation, no endless loop; and it keeps one list per recorded
    frame. *)
Theorem track_faces_returns_on_detected (scenes : list shot) (extracted : list extraction) :
  ∃ tracks store,
    track_faces cfg scenes (detect_faces extracted) = Done (tracks, store)
    ∧ length store = length (detect_faces extracted).
Proof.
  destruct (track_faces_returns scenes (detect_faces extracted))
    as (tracks & store & H & _ & Hlen); [|eauto].
  apply Forall_forall. intros l Hl. apply Forall_forall. intros d Hd.
  by destruct (detect_faces_from_elem _ _ _ _ Hl Hd).
Qed.

(** X7. A shot that passes the guard leaves the lists of its frames
    [start .. end] empty and the lists of every other frame as they were, so
    a frame shared with the next shot has no detection left for it. *)
Theorem track_faces_empties_the_shot (s : shot) (store store' : list (list detection))
    (tracks : list Track.t) (k : nat) :
  min_track cfg ≤ shot_length s →
  0 ≤ start_frame s ≤ end_frame s →
  track_faces cfg [s] store = Done (tracks, store') →
  (Z.of_nat k < Py.len store)%Z →
  store' !! k
  = if decide (start_frame s ≤ Z.of_nat k ≤ end_frame s) then Some [] else store !! k.
Proof.
  unfold shot_length. intros Hg H0 Hrun Hk. cbn [track_faces] in Hrun.
  rewrite (proj2 (Z.leb_le _ _) Hg) in Hrun.
  set (sl := Py.slice store (start_frame s) (end_frame s + 1)) in *.
  destruct (track_shot cfg sl) as [[tr rest]|e|] eqn:Hshot; cbn in Hrun; [|done..].
  injection Hrun as _ <-.
  apply track_shot_rest in Hshot as ->.
  unfold write_back; cbn zeta. rewrite length_replicate.
  assert (length sl = Z.to_nat (Z.min (end_frame s + 1) (Py.len store)
                                - Z.min (start_frame s) (Py.len store))) as Hsl.
  { unfold sl, Py.slice, Py.slice_bound; cbn zeta.
    destruct (start_frame s <? 0) eqn:E1; [lia|].
    destruct (end_frame s + 1 <? 0) eqn:E2; [lia|].
    rewrite length_take, length_drop. unfold Py.len. lia. }
  unfold Py.slice_bound. destruct (start_frame s <? 0) eqn:E1; [lia|].
  unfold Py.len in *.
  set (a := Z.to_nat (Z.min (start_frame s) (Z.of_nat (length store)))) in *.
  case_decide as Hin.
  - rewrite lookup_app_r by (rewrite length_take; lia).
    rewrite length_take. rewrite lookup_app_l by (rewrite length_replicate; lia).
    apply lookup_replicate_2. lia.
  - destruct (decide (Z.of_nat k < start_frame s)).
    + rewrite lookup_app_l by (rewrite length_take; lia).
      apply lookup_take_lt. lia.
    + rewrite lookup_app_r by (rewrite length_take; lia).
      rewrite length_take.
      rewrite lookup_app_r by (rewrite length_replicate; lia).
      rewrite length_replicate, lookup_drop. f_equal. lia.
Qed.

End TrackFacesStore.

Section TrackFacesWitness.

Local Open Scope Z_scope.

Lemma track_faces_empties_the_shot_witness :
  let cfg := Args 2 10 1 in
  let store := (λ f, [still_face f]) <$> seqZ 0 8 in
  let t := Track.Make [2; 3; 4; 5]
             (replicate 4 (QBox 0 0 10 10)) (replicate 4 (9 # 10)%Q) in
  let store' := [[still_face 0]; [still_face 1]; []; []; []; [];
                 [still_face 6]; [still_face 7]] in
  store' !! 5%nat
  = if decide (start_frame (Shot 2 5) ≤ Z.of_nat 5 ≤ end_frame (Shot 2 5))
    then Some [] else store !! 5%nat.
Proof.
  intros cfg store t store'.
  apply (track_faces_empties_the_shot cfg (Shot 2 5) store store' [t] 5).
  - vm_compute. discriminate.
  - cbn. lia.
  - vm_compute. reflexivity.
  - vm_compute. reflexivity.
Defined.

End TrackFacesWitness.

(** ** An emitted track goes through its detections *)

Section Exact.

Local Open Scope Z_scope.

Variable cfg : args.

Lemma zip_fmap_both {A B C} (f : A → B) (g : A → C) (l : list A) :
  zip (f <$> l) (g <$> l) = (λ x, (f x, g x)) <$> l.
Proof. induction l as [|x l IH]; cbn; [done|]. by rewrite <- IH. Qed.

Lemma sort_points_increasing (l : list (Z * Q)) :
  StronglySorted (λ a b : Z * Q, a.1 < b.1) l → sort_points l = l.
Proof.
  unfold sort_points. induction 1 as [|p l Hs IH Hp]; cbn; [done|].
  rewrite IH. destruct l as [|q l]; [done|]. cbn.
  apply Forall_cons in Hp as [Hpq _].
  by rewrite (proj2 (Z.leb_le _ _)) by lia.
Qed.

(** On points of strictly increasing abscissae the interpolation is exact at
    every point. *)
Lemma interp_at_sample (pts : list (Z * Q)) x y :
  StronglySorted (λ a b : Z * Q, a.1 < b.1) pts →
  (x, y) ∈ pts → interp_at pts x = Some y.
Proof.
  induction 1 as [|[xa ya] pts Hs IH Hp]; [by intros ?%elem_of_nil|].
  intros Hin. cbn [interp_at]. destruct pts as [|[xb yb] pts].
  - apply list_elem_of_singleton in Hin as [= -> ->]. by rewrite Z.eqb_refl.
  - apply elem_of_cons in Hin as [[= -> ->]|Hin].
    + apply Forall_cons in Hp as [Hab _]. cbn in Hab.
      rewrite (proj2 (Z.leb_gt _ _)) by lia.
      rewrite (proj2 (Z.ltb_ge _ _)) by lia. by rewrite Z.eqb_refl.
    + assert (xb ≤ x) as Hle.
      { apply elem_of_cons in Hin as [[= -> ->]|Hin]; [lia|].
        apply StronglySorted_inv in Hs as [_ Hb]. rewrite Forall_forall in Hb.
        specialize (Hb _ Hin). cbn in Hb. lia. }
      rewrite (proj2 (Z.leb_le _ _)) by lia. by apply IH.
Qed.

Lemma mapM_Done_lookup {A B} (f : A → outcome B) l r (k : nat) v :
  mapM f l = Done r → l !! k = Some v → ∃ w, f v = Done w ∧ r !! k = Some w.
Proof.
  revert r k. induction l as [|x l IH]; intros r k; cbn; [done|].
  destruct (f x) as [w| |] eqn:Hx; cbn; [|done..].
  destruct (mapM f l) as [r'| |]; cbn; [|done..].
  intros [= <-]. destruct k as [|k]; cbn.
  - intros [= <-]. eauto.
  - by apply IH.
Qed.

Lemma interp1d_sample (g : detection → Q) (track : list detection) x_new r d (k : nat) :
  StronglySorted later track →
  interp1d (frame <$> track) (g <$> track) x_new = Done r →
  d ∈ track → x_new !! k = Some (frame d) →
  r !! k = Some (g d).
Proof.
  intros Hs Hi Hd Hk. unfold interp1d in Hi. rewrite zip_fmap_both in Hi.
  assert (StronglySorted (λ a b : Z * Q, a.1 < b.1)
                         ((λ x, (frame x, g x)) <$> track)) as Hpts.
  { eapply StronglySorted_fmap; [|done]. by intros a b Hab. }
  rewrite sort_points_increasing in Hi by done.
  destruct (mapM_Done_lookup _ _ _ _ _ Hi Hk) as (w & Hw & ->).
  rewrite (interp_at_sample _ (frame d) (g d)) in Hw; [by injection Hw as ->|done|].
  apply list_elem_of_fmap. by exists d.
Qed.

Lemma stack4_lookup c0 c1 c2 c3 (k : nat) a b c d :
  c0 !! k = Some a → c1 !! k = Some b → c2 !! k = Some c → c3 !! k = Some d →
  stack4 c0 c1 c2 c3 !! k = Some (QBox a b c d).
Proof.
  revert c0 c1 c2 c3. induction k as [|k IH];
    intros [|a0 c0] [|b0 c1] [|x0 c2] [|d0 c3]; cbn; try done.
  - by intros [= ->] [= ->] [= ->] [= ->].
  - apply IH.
Qed.

Lemma interpolate_track_exact track t d :
  StronglySorted later track →
  interpolate_track cfg track = Done (Some t) →
  d ∈ track →
  ∃ k : nat,
    Track.frame t !! k = Some (frame d)
    ∧ Track.bbox t !! k
      = Some (QBox (inject_Z (bx0 (bbox d))) (inject_Z (by0 (bbox d)))
                   (inject_Z (bx1 (bbox d))) (inject_Z (by1 (bbox d))))
    ∧ Track.confidence t !! k = Some (conf d).
Proof.
  intros Hs He Hd.
  destruct (interpolate_track_Some cfg _ _ He)
    as (first & final & Hh & Hl & Hle & Hfr & _).
  pose proof (later_span track first (frame d)) as _.
  assert (first ≤ frame d ≤ final) as Hrange.
  { apply list_elem_of_lookup in Hd as Hd'. destruct Hd' as [i Hi].
    assert (StronglySorted Z.le (frame <$> track)) as Hsl.
    { eapply StronglySorted_fmap; [|done]. intros a b Hab. unfold later in Hab. lia. }
    pose proof (list_elem_of_fmap_2 frame _ _ Hd) as Hfd.
    split.
    - destruct track as [|d0 track']; [done|]. injection Hh as <-.
      apply elem_of_cons in Hd as [->|Hd]; [lia|].
      apply StronglySorted_inv in Hs as [_ Hall]. rewrite Forall_forall in Hall.
      specialize (Hall _ Hd). unfold later in Hall. lia.
    - apply last_Some in Hl as [l' Hl']. rewrite Hl' in Hsl, Hfd.
      apply elem_of_app in Hfd as [Hin| ->%list_elem_of_singleton]; [|lia].
      apply (StronglySorted_app_1_elem_of _ _ _ _ _ Hsl Hin). apply list_elem_of_here. }
  set (k := Z.to_nat (frame d - first)). exists k.
  assert (Py.arange first (final + 1) !! k = Some (frame d)) as Hk.
  { unfold Py.arange. apply lookup_seqZ. unfold k. lia. }
  revert He. unfold interpolate_track.
  destruct (head _) as [first'|]; [|done]. injection Hh as ->.
  destruct (last _) as [final'|]; [|done]. injection Hl as ->. cbn zeta.
  destruct (interp1d _ ((inject_Z ∘ bx0 ∘ bbox) <$> track) _) as [c0| |] eqn:H0;
    cbn; [|done..].
  destruct (interp1d _ ((inject_Z ∘ by0 ∘ bbox) <$> track) _) as [c1| |] eqn:H1;
    cbn; [|done..].
  destruct (interp1d _ ((inject_Z ∘ bx1 ∘ bbox) <$> track) _) as [c2| |] eqn:H2;
    cbn; [|done..].
  destruct (interp1d _ ((inject_Z ∘ by1 ∘ bbox) <$> track) _) as [c3| |] eqn:H3;
    cbn; [|done..].
  destruct (interp1d _ (conf <$> track) _) as [cc| |] eqn:H4; cbn; [|done..].
  destruct (big_enough _ _); [|done]. intros [= <-]. cbn.
  split; [done|]. split.
  - apply stack4_lookup.
    + exact (interp1d_sample (inject_Z ∘ bx0 ∘ bbox) track _ _ d k Hs H0 Hd Hk).
    + exact (interp1d_sample (inject_Z ∘ by0 ∘ bbox) track _ _ d k Hs H1 Hd Hk).
    + exact (interp1d_sample (inject_Z ∘ bx1 ∘ bbox) track _ _ d k Hs H2 Hd Hk).
    + exact (interp1d_sample (inject_Z ∘ by1 ∘ bbox) track _ _ d k Hs H3 Hd Hk).
  - exact (interp1d_sample conf track _ _ d k Hs H4 Hd Hk).
Qed.

(** X5. On lists indexed by frame in which no two detections of one frame
    overlap by more than the threshold, an emitted track goes through its
    detections: the candidate it interpolates holds more than [min_track]
    detections of the shot, on strictly increasing frames, and at the frame
    of each of them the track holds that detection's box and confidence,
    unchanged by the interpolation. *)
Theorem emitted_track_goes_through_detections (base : Z)
    (sceneFaces rest : list (list detection)) (tracks : list Track.t) (t : Track.t) :
  frame_indexed base sceneFaces → Forall faces_apart sceneFaces →
  track_shot cfg sceneFaces = Done (tracks, rest) →
  t ∈ tracks →
  ∃ track,
    interpolate_track cfg track = Done (Some t)
    ∧ StronglySorted later track
    ∧ min_track cfg < Py.len track
    ∧ ∀ d, d ∈ track →
        d ∈ concat sceneFaces
        ∧ ∃ k : nat,
            Track.frame t !! k = Some (frame d)
            ∧ Track.bbox t !! k
              = Some (QBox (inject_Z (bx0 (bbox d))) (inject_Z (by0 (bbox d)))
                           (inject_Z (bx1 (bbox d))) (inject_Z (by1 (bbox d))))
            ∧ Track.confidence t !! k = Some (conf d).
Proof.
  unfold track_shot. intros Hidx Hap Hw Ht.
  assert (∀ p tr p',
    (frame_indexed base p ∧ Forall faces_apart p) ∧ Forall2 sublist p sceneFaces →
    for_frameFaces cfg [] p = Done (tr, p') →
    ((frame_indexed base p' ∧ Forall faces_apart p') ∧ Forall2 sublist p' sceneFaces)
    ∧ (StronglySorted later tr ∧ ∀ d, d ∈ tr → d ∈ concat sceneFaces)) as Hpass.
  { intros p tr p' [[Hi Ha] Hsub] Hp.
    destruct (for_frameFaces_later cfg base [] p tr p' Hp Hi Ha) as (Hs & Hi' & Ha');
      [constructor|constructor|].
    apply for_frameFaces_provenance in Hp as (Hsub' & Hin & _).
    split; [split; [done|by eapply Forall2_sublist_trans]|]. split; [done|].
    intros d [Hd|Hd]%Hin; [by apply elem_of_nil in Hd|].
    by eapply Forall2_sublist_concat. }
  destruct (while_true_emitted cfg _ _ Hpass _ _ _ _ _
              (conj (conj Hidx Hap) (Forall2_sublist_refl sceneFaces)) Hw t Ht)
    as [Hnil|(track & [Hs Hin] & Hlen & He)]; [by apply elem_of_nil in Hnil|].
  exists track. split; [done|]. split; [done|]. split; [done|].
  intros d Hd. split; [by apply Hin|].
  by apply (interpolate_track_exact track t d).
Qed.

End Exact.

Section ExactWitness.

Local Open Scope Z_scope.

Lemma emitted_track_goes_through_detections_witness :
  let cfg := Args 1 10 1 in
  let sceneFaces := [[Det 0 (Box 0 0 10 10) (9 # 10)]; [];
                     [Det 2 (Box 2 0 14 10) (1 # 2)]] in
  let t := Track.Make [0; 1; 2]
             [QBox 0 0 10 10; QBox (2 # 2) (0 # 2) (24 # 2) (20 # 2); QBox 2 0 14 10]
             [(9 # 10)%Q; (280 # 400)%Q; (1 # 2)%Q] in
  ∃ track,
    interpolate_track cfg track = Done (Some t)
    ∧ StronglySorted later track
    ∧ min_track cfg < Py.len track
    ∧ ∀ d, d ∈ track →
        d ∈ concat sceneFaces
        ∧ ∃ k : nat,
            Track.frame t !! k = Some (frame d)
            ∧ Track.bbox t !! k
              = Some (QBox (inject_Z (bx0 (bbox d))) (inject_Z (by0 (bbox d)))
                           (inject_Z (bx1 (bbox d))) (inject_Z (by1 (bbox d))))
            ∧ Track.confidence t !! k = Some (conf d).
Proof.
  intros cfg sceneFaces t.
  apply (emitted_track_goes_through_detections cfg 0 sceneFaces [[]; []; []] [t] t).
  - intros [|[|[|k]]] l d [= <-] Hd;
      try (apply list_elem_of_singleton in Hd as ->; reflexivity).
    by apply elem_of_nil in Hd.
  - repeat constructor;
      (intros [|i] [|j] a b Hij Ha Hb; [done|by destruct j|by destruct i|by destruct i]).
  - vm_compute. reflexivity.
  - apply list_elem_of_here.
Defined.

End ExactWitness.

(** ** More on the intersection over union *)

Import CropVideo.

Section IouRange.

Local Open Scope Z_scope.

Lemma Qdiv_Z_range a b : 0 ≤ a ≤ b → 0 < b → (0 <= inject_Z a / inject_Z b <= 1)%Q.
Proof.
  intros [Ha Hab] Hb.
  assert (0 < inject_Z b)%Q as Hbq by (rewrite <- (Zlt_Qlt 0); lia).
  split.
  - apply Qle_shift_div_l; [done|]. rewrite Qmult_0_l. rewrite <- (Zle_Qle 0). lia.
  - apply Qle_shift_div_r; [done|]. rewrite Qmult_1_l. by rewrite <- Zle_Qle.
Qed.

(** X9. For boxes of positive width and height the IOU, in either mode, is
    a number between 0 and 1. *)
Theorem iou_between_zero_and_one (boxA boxB : box) (evalCol : bool) :
  positive_area boxA → positive_area boxB →
  ∃ iou, bb_intersection_over_union boxA boxB evalCol = Done iou ∧ (0 <= iou <= 1)%Q.
Proof.
  intros HA HB. unfold bb_intersection_over_union; cbn zeta.
  pose proof (boxArea_pos boxA HA). pose proof (boxArea_pos boxB HB).
  pose proof (interArea_nonneg boxA boxB).
  pose proof (interArea_le_l boxA boxB HA). pose proof (interArea_le_r boxA boxB HB).
  destruct evalCol; rewrite div_Done by lia; eexists; (split; [done|]);
    apply Qdiv_Z_range; lia.
Qed.

Lemma iou_between_zero_and_one_witness :
  ∃ iou, bb_intersection_over_union (Box 0 0 10 10) (Box 5 5 20 20) true = Done iou
         ∧ (0 <= iou <= 1)%Q.
Proof.
  apply (iou_between_zero_and_one (Box 0 0 10 10) (Box 5 5 20 20) true);
    split; cbn; lia.
Defined.

(** X10. The default IOU of two boxes of positive width and height is 1
    only when they are the same box. *)
Theorem iou_is_one_only_on_equal_boxes (boxA boxB : box) (iou : Q) :
  positive_area boxA → positive_area boxB →
  bb_intersection_over_union boxA boxB false = Done iou → (iou == 1)%Q →
  boxA = boxB.
Proof.
  intros HA HB. unfold bb_intersection_over_union; cbn zeta.
  pose proof (union_pos boxA boxB HA HB) as HU.
  pose proof (interArea_le_l boxA boxB HA) as Hl.
  pose proof (interArea_le_r boxA boxB HB) as Hr.
  rewrite div_Done by lia. intros [= <-] H1.
  assert (interArea boxA boxB = boxArea boxA + boxArea boxB - interArea boxA boxB) as E.
  { set (u := boxArea boxA + boxArea boxB - interArea boxA boxB) in *.
    assert (inject_Z (interArea boxA boxB) == inject_Z u)%Q as Hq.
    { assert (¬ inject_Z u == 0)%Q.
      { intros E0. unfold Qeq in E0. cbn in E0. lia. }
      rewrite <- (Qmult_1_l (inject_Z u)), <- H1. field. done. }
    unfold Qeq in Hq. cbn in Hq. lia. }
  assert (interArea boxA boxB = boxArea boxA) as EA by lia.
  assert (interArea boxA boxB = boxArea boxB) as EB by lia.
  clear HU Hl Hr E H1.
  destruct HA as [HAx HAy], HB as [HBx HBy].
  destruct boxA as [ax0 ay0 ax1 ay1], boxB as [bx0' by0' bx1' by1'].
  unfold interArea, boxArea in *; cbn in *.
  set (mx := Z.max 0 (Z.min ax1 bx1' - Z.max ax0 bx0')) in *.
  set (my := Z.max 0 (Z.min ay1 by1' - Z.max ay0 by0')) in *.
  assert (mx ≤ ax1 - ax0 ∧ mx ≤ bx1' - bx0' ∧ 0 ≤ mx) as (? & ? & ?) by (unfold mx; lia).
  assert (my ≤ ay1 - ay0 ∧ my ≤ by1' - by0' ∧ 0 ≤ my) as (? & ? & ?) by (unfold my; lia).
  assert (mx = ax1 - ax0) by nia. assert (my = ay1 - ay0) by nia.
  assert (mx = bx1' - bx0') by nia. assert (my = by1' - by0') by nia.
  f_equal; unfold mx, my in *; lia.
Qed.

Lemma iou_is_one_only_on_equal_boxes_witness : Box 3 4 13 24 = Box 3 4 13 24.
Proof.
  apply (iou_is_one_only_on_equal_boxes (Box 3 4 13 24) (Box 3 4 13 24) (200 # 200)%Q).
  - split; cbn; lia.
  - split; cbn; lia.
  - vm_compute. reflexivity.
  - reflexivity.
Defined.

End IouRange.

(** ** The audio cut of a track *)

Section AudioSpan.

Local Open Scope Z_scope.

Lemma emitted_frames (cfg : args) (sceneFaces rest : list (list detection))
    (tracks : list Track.t) (t : Track.t) :
  track_shot cfg sceneFaces = Done (tracks, rest) → t ∈ tracks →
  ∃ first final, first ≤ final ∧ Track.frame t = seqZ first (final - first + 1).
Proof.
  unfold track_shot. intros Hw Ht.
  destruct (while_true_emitted cfg (λ _, True) (λ _, True)
              ltac:(done) _ _ _ _ _ I Hw t Ht)
    as [Hnil|(track & _ & _ & He)]; [by apply elem_of_nil in Hnil|].
  destruct (interpolate_track_Some cfg _ _ He) as (first & final & _ & _ & Hle & Hfr & _).
  eauto.
Qed.

(** X16. For every track that [track_shot] returns, the audio is cut from
    [frames[0] / 25] to [(frames[-1] + 1) / 25] seconds without an index
    error; the cut lasts one 25th of a second per frame of the track, and
    both bounds are whole numbers of milliseconds, so the [%.3f] of the
    command line loses nothing. *)
Theorem audio_span_lasts_one_25th_per_frame (cfg : args)
    (sceneFaces rest : list (list detection)) (tracks : list Track.t) (t : Track.t) :
  track_shot cfg sceneFaces = Done (tracks, rest) → t ∈ tracks →
  ∃ audioStart audioEnd,
    audio_span t = Done (audioStart, audioEnd)
    ∧ (audioEnd - audioStart == inject_Z (Py.len (Track.frame t)) / 25)%Q
    ∧ (∃ ms, audioStart * 1000 == inject_Z ms)%Q
    ∧ (∃ ms, audioEnd * 1000 == inject_Z ms)%Q.
Proof.
  intros Hw Ht. destruct (emitted_frames _ _ _ _ _ Hw Ht) as (first & final & Hle & Hfr).
  destruct (seqZ_head_last first (final - first + 1)) as [Hh Hl]; [lia|].
  unfold audio_span. rewrite Hfr, Hh, Hl.
  replace (first + (final - first + 1) - 1) with final by lia.
  eexists _, _. split; [done|]. unfold Py.len. rewrite length_seqZ.
  rewrite Z2Nat.id by lia. split; [|split].
  - replace (final - first + 1) with (final + 1 + - first) by lia.
    rewrite (inject_Z_plus (final + 1)), inject_Z_opp. field.
  - exists (40 * first). rewrite inject_Z_mult. field.
  - exists (40 * (final + 1)). rewrite inject_Z_mult. field.
Qed.

Lemma audio_span_lasts_one_25th_per_frame_witness :
  let t := Track.Make [5; 6; 7; 8]
             (replicate 4 (QBox 0 0 10 10)) (replicate 4 (9 # 10)%Q) in
  ∃ audioStart audioEnd,
    audio_span t = Done (audioStart, audioEnd)
    ∧ (audioEnd - audioStart == inject_Z (Py.len (Track.frame t)) / 25)%Q
    ∧ (∃ ms, audioStart * 1000 == inject_Z ms)%Q
    ∧ (∃ ms, audioEnd * 1000 == inject_Z ms)%Q.
Proof.
  intros t.
  apply (audio_span_lasts_one_25th_per_frame (Args 2 10 1)
           ((λ f, [still_face f]) <$> seqZ 5 4) [[]; []; []; []] [t] t).
  - vm_compute. reflexivity.
  - apply list_elem_of_here.
Defined.

End AudioSpan.

(** ** The windows of a pass *)

Section Windows.

Local Open Scope Z_scope.

Lemma slice_ordered {A} (l : list A) a b :
  0 ≤ a ≤ b → Py.slice l a b = take (Z.to_nat (b - a)) (drop (Z.to_nat a) l).
Proof.
  intros Hab. unfold Py.slice, Py.slice_bound, Py.len; cbn zeta.
  destruct (a <? 0) eqn:E1; [lia|]. destruct (b <? 0) eqn:E2; [lia|].
  destruct (decide (a ≤ Z.of_nat (length l))) as [Ha|Ha].
  - rewrite (Z.min_l a) by lia.
    destruct (decide (b ≤ Z.of_nat (length l))) as [Hb|Hb].
    + by rewrite Z.min_l by lia.
    + rewrite Z.min_r by lia. rewrite !take_ge; [done|rewrite length_drop; lia..].
  - rewrite (Z.min_r a) by lia. rewrite !drop_ge by lia. by rewrite !take_nil.
Qed.

(** The consecutive windows of width [w] that reach the end of a sequence,
    put end to end, are the sequence. *)
Lemma windows_cover {A} (l : list A) (w : Z) (n : nat) :
  0 < w → Py.len l ≤ Z.of_nat n * w →
  concat ((λ i, Py.slice l (i * w) ((i + 1) * w)) <$> seqZ 0 (Z.of_nat n)) = l.
Proof.
  intros Hw Hn.
  assert (∀ m : nat,
    concat ((λ i, Py.slice l (i * w) ((i + 1) * w)) <$> seqZ 0 (Z.of_nat m))
    = take (Z.to_nat (Z.of_nat m * w)) l) as Hm.
  { induction m as [|m IH]; [by rewrite take_0|].
    rewrite seqZ_S, fmap_app, concat_app, IH. cbn.
    rewrite app_nil_r, Z.add_0_l, slice_ordered by nia.
    rewrite take_take_drop. f_equal. nia. }
  rewrite Hm. apply take_ge. unfold Py.len in Hn. lia.
Qed.

End Windows.

Section PerFrameScores.

Local Open Scope Z_scope.

Context {A V EmbedA EmbedV Out : Type}.
Variable forward_audio_frontend : list A → EmbedA.
Variable forward_visual_frontend : list V → EmbedV.
Variable forward_cross_attention : EmbedA → EmbedV → EmbedA * EmbedV.
Variable forward_audio_visual_backend : EmbedA → EmbedV → Out.
Variable lossAV_forward : Out → list Q.

Local Abbreviation the_score_window :=
  (score_window forward_audio_frontend forward_visual_frontend forward_cross_attention
                forward_audio_visual_backend lossAV_forward).
Local Abbreviation the_duration_scores :=
  (duration_scores forward_audio_frontend forward_visual_frontend forward_cross_attention
                   forward_audio_visual_backend lossAV_forward).
Local Abbreviation the_evaluate_file :=
  (evaluate_file forward_audio_frontend forward_visual_frontend forward_cross_attention
                 forward_audio_visual_backend lossAV_forward).

(** The windows of a pass over the aligned sequences reach their ends. *)
Lemma aligned_windows_cover
    (audio_feature : list A) (video_feature : list V) (duration : Z) :
  Py.len audio_feature < 2 ^ 40 → Py.len video_feature < 2 ^ 40 →
  0 < duration < 2 ^ 31 →
  let '(length_s, audio, video) := align audio_feature video_feature in
  let batch_size := Py.ceil (Float.div length_s (Float.of_int duration)) in
  concat ((λ i, Py.slice audio (i * duration * 100) ((i + 1) * duration * 100))
          <$> Py.arange 0 batch_size) = audio
  ∧ concat ((λ i, Py.slice video (i * duration * 25) ((i + 1) * duration * 25))
            <$> Py.arange 0 batch_size) = video.
Proof.
  intros Ha Hv Hd.
  pose proof (align_cut audio_feature video_feature Ha Hv) as Hal.
  cbn zeta in Hal. destruct Hal as (-> & Hla & Hlv & Hna & Hnv).
  assert (0 ≤ Py.len audio_feature) as Ha0 by (unfold Py.len; lia).
  assert (0 ≤ Py.len video_feature) as Hv0 by (unfold Py.len; lia).
  destruct (passes_reach_end (Py.len audio_feature) (Py.len video_feature) duration)
    as [Hb Hreach]; [lia..|].
  cbn zeta in Hb, Hreach.
  set (d := Qmin _ _) in *.
  set (b := Py.ceil (Float.div d (Float.of_int duration))) in *.
  set (audio := take _ audio_feature) in *. set (video := take _ video_feature) in *.
  unfold Py.arange. rewrite Z.sub_0_r. rewrite <- (Z2Nat.id b) by done.
  split.
  - etransitivity;
      [|apply (windows_cover audio (duration * 100) (Z.to_nat b));
        [lia|rewrite Z2Nat.id by done; lia]].
    f_equal. apply list_fmap_ext. intros _ i _. f_equal; lia.
  - etransitivity;
      [|apply (windows_cover video (duration * 25) (Z.to_nat b));
        [lia|rewrite Z2Nat.id by done; lia]].
    f_equal. apply list_fmap_ext. intros _ i _. f_equal; lia.
Qed.

(** X11. For every duration the windows of a pass, put end to end, are the
    aligned audio and the aligned video: the slices handed to the model
    drop no sample and repeat none. *)
Theorem pass_windows_partition
    (audio_feature : list A) (video_feature : list V) (duration : Z) :
  Py.len audio_feature < 2 ^ 40 → Py.len video_feature < 2 ^ 40 →
  0 < duration < 2 ^ 31 →
  let '(length_s, audio, video) := align audio_feature video_feature in
  let batch_size := Py.ceil (Float.div length_s (Float.of_int duration)) in
  concat ((λ i, Py.slice audio (i * duration * 100) ((i + 1) * duration * 100))
          <$> Py.arange 0 batch_size) = audio
  ∧ concat ((λ i, Py.slice video (i * duration * 25) ((i + 1) * duration * 25))
            <$> Py.arange 0 batch_size) = video.
Proof. apply aligned_windows_cover. Qed.



End PerFrameScores.

Lemma pass_windows_partition_witness :
  let '(length_s, audio, video) := align (replicate 230 ()) (replicate 50 ()) in
  let batch_size := Py.ceil (Float.div length_s (Float.of_int 3)) in
  concat ((λ i, Py.slice audio (i * 3 * 100) ((i + 1) * 3 * 100))%Z
          <$> Py.arange 0 batch_size) = audio
  ∧ concat ((λ i, Py.slice video (i * 3 * 25) ((i + 1) * 3 * 25))%Z
            <$> Py.arange 0 batch_size) = video.
Proof.
  apply (pass_windows_partition (replicate 230 ()) (replicate 50 ()) 3);
    [reflexivity|reflexivity|lia].
Defined.


(** ** The geometry of a crop *)

Import CropVideo.

Section Crop.

Local Open Scope Z_scope.







End Crop.

(** ** The frames that [detect_faces] records *)

Section Recorded.

Local Open Scope Z_scope.

Lemma detect_faces_from_entry fidx extracted (k : nat) :
  Forall (λ x, extracted_ok x = true) (take (S k) extracted) →
  (k < length extracted)%nat →
  ∃ faces,
    extracted !! k = Some (Extracted faces)
    ∧ detect_faces_from fidx extracted !! k
      = Some (omap (face_detection (fidx + Z.of_nat k)) faces).
Proof.
  revert fidx k. induction extracted as [|x extracted IH]; intros fidx k Hok Hk;
    [cbn in Hk; lia|].
  cbn [take] in Hok. apply Forall_cons in Hok as [Hx Hok].
  destruct x as [faces|e]; [|done]. cbn [detect_faces_from].
  destruct k as [|k].
  - exists faces. rewrite Z.add_0_r. done.
  - cbn in Hk. destruct (IH (fidx + 1) k Hok ltac:(lia)) as (faces' & H1 & H2).
    exists faces'. split; [exact H1|]. etransitivity; [exact H2|]. do 3 f_equal. lia.
Qed.

(** X8. As long as no frame up to [k] made the extraction raise, entry [k]
    of the recorded detections is built from the faces of frame [k], and
    each detection in it carries the frame number [k]. *)
Theorem detect_faces_entry_is_frame (extracted : list extraction) (k : nat) :
  Forall (λ x, extracted_ok x = true) (take (S k) extracted) →
  (k < length extracted)%nat →
  ∃ faces,
    extracted !! k = Some (Extracted faces)
    ∧ detect_faces extracted !! k = Some (omap (face_detection (Z.of_nat k)) faces)
    ∧ Forall (λ d, frame d = Z.of_nat k) (omap (face_detection (Z.of_nat k)) faces).
Proof.
  intros Hok Hk. destruct (detect_faces_from_entry 0 extracted k Hok Hk) as (faces & H1 & H2).
  exists faces. split; [done|]. split; [done|].
  apply Forall_forall. intros d Hd. apply list_elem_of_omap in Hd as (f & _ & Hf).
  by apply face_detection_Some in Hf as (? & _).
Qed.

Lemma detect_faces_entry_is_frame_witness :
  let extracted := [Extracted [sample_face 0 0 10 10 (9 # 10)];
                    Extracted [sample_face 2 0 10 10 (8 # 10); sample_face 5 5 0 7 (9 # 10)];
                    Throws (Exception "unreadable image")] in
  ∃ faces,
    extracted !! 1%nat = Some (Extracted faces)
    ∧ detect_faces extracted !! 1%nat = Some (omap (face_detection (Z.of_nat 1)) faces)
    ∧ Forall (λ d, frame d = Z.of_nat 1) (omap (face_detection (Z.of_nat 1)) faces).
Proof.
  intros extracted. apply (detect_faces_entry_is_frame extracted 1).
  - repeat constructor.
  - cbn. lia.
Defined.

End Recorded.

(** ** The displayed score *)

Section Displayed.

Local Open Scope Z_scope.

Lemma window_lookup (score : list Q) (i k : nat) :
  window score (Z.of_nat i) !! k
  = if decide (Z.max (Z.of_nat i - 2) 0 + Z.of_nat k
               < Z.min (Z.of_nat i + 3) (Py.len score - 1))
    then score !! Z.to_nat (Z.max (Z.of_nat i - 2) 0 + Z.of_nat k) else None.
Proof.
  destruct score as [|s0 score].
  - rewrite window_empty_score. unfold Py.len. cbn [length].
    rewrite decide_False by lia. done.
  - unfold window. apply slice_lookup; unfold Py.len; cbn [length]; lia.
Qed.

(** X13. The last score of a track is never displayed: changing it changes
    no smoothed score, at any index. *)
Theorem last_score_is_never_displayed (score : list Q) (x y : Q) (i : nat) :
  smoothed (score ++ [x]) (Z.of_nat i) = smoothed (score ++ [y]) (Z.of_nat i).
Proof.
  unfold smoothed. f_equal. apply list_eq. intros k.
  rewrite !window_lookup. unfold Py.len. rewrite !length_app. cbn [length].
  case_decide as Hk; [|done].
  rewrite !lookup_app_l by lia. done.
Qed.

(** X14. The smoothed score at index [i] is a number exactly when the
    series has at least two scores and [i] is at most its length; on a
    series of one score, and past the end, the window is empty and the
    overlay shows the mean of nothing. *)
Theorem smoothed_is_a_number_iff (score : list Q) (i : nat) :
  is_Some (smoothed score (Z.of_nat i)) ↔ 2 ≤ Py.len score ∧ Z.of_nat i ≤ Py.len score.
Proof.
  unfold smoothed, Py.mean.
  pose proof (window_lookup score i 0) as H0. rewrite Z.add_0_r in H0.
  split.
  - intros Hs. destruct (window score (Z.of_nat i)) as [|s w] eqn:Hw.
    { by destruct Hs. }
    case_decide as Hk; [|done]. lia.
  - intros [H2 Hi]. rewrite decide_True in H0 by lia.
    destruct (lookup_lt_is_Some_2 score (Z.to_nat (Z.max (Z.of_nat i - 2) 0))) as [s Hs].
    { unfold Py.len in *. lia. }
    rewrite Hs in H0. destruct (window score (Z.of_nat i)); [done|eauto].
Qed.

End Displayed.

(** ** The working directory *)

Section WorkingDirectory.

Context {Scenes Faces Tracks VideoTracks Scores : Type}.

Variable save_path : list string.

Variable extract_video extract_audio extract_frames : io unit.
Variable scenes_detect : io Scenes.
Variable detect_faces : io Faces.
Variable track_faces : Scenes → Faces → io Tracks.
Variable video_tracks : Tracks → io VideoTracks.
Variable face_processor_save_results : VideoTracks → io unit.
Variable evaluate_network : io Scores.
Variable speaker_detector_save_results : Scores → io unit.
Variable visualization : Scores → VideoTracks → io unit.

Lemma cleanup_cache_spec fs :
  ∃ fs', _cleanup_cache save_path fs = (inr (), fs')
         ∧ ∀ p, p ∈ fs' ↔ p ∈ fs ∧ ¬ save_path `prefix_of` p.
Proof.
  unfold _cleanup_cache. destruct (exists_ save_path fs) eqn:E.
  - eexists. split; [done|]. intros p. unfold rmtree. rewrite elem_of_filter. tauto.
  - eexists. split; [done|]. intros p. split; [|tauto].
    intros Hp. split; [done|]. intros Hpre.
    unfold exists_ in E. apply bool_decide_eq_false in E. apply E. by exists p.
Qed.

(** X18. After [_setup_paths] the working directory holds the four empty
    directories [pyavi], [pyframes], [pywork] and [pycrop] and nothing of an
    earlier run, and the paths outside it are as before. *)
Theorem setup_paths_makes_fresh_directories (fs : gset (list string)) (p : list string) :
  (_setup_paths save_path fs).1 = inr ()
  ∧ (p ∈ (_setup_paths save_path fs).2 ↔
     (p ∈ fs ∧ ¬ save_path `prefix_of` p)
     ∨ p ∈ [save_path ++ ["pyavi"]; save_path ++ ["pyframes"];
            save_path ++ ["pywork"]; save_path ++ ["pycrop"]]).
Proof.
  unfold _setup_paths, Pipeline.bind.
  destruct (cleanup_cache_spec fs) as (fs' & -> & H). cbn. split; [done|].
  unfold mkdir. rewrite !elem_of_union, !elem_of_singleton, H.
  rewrite !elem_of_cons, elem_of_nil. tauto.
Qed.

Local Abbreviation the_stages :=
  (stages extract_video extract_audio extract_frames scenes_detect detect_faces
          track_faces video_tracks face_processor_save_results evaluate_network
          speaker_detector_save_results visualization).
Local Abbreviation the_run :=
  (run save_path extract_video extract_audio extract_frames scenes_detect detect_faces
       track_faces video_tracks face_processor_save_results evaluate_network
       speaker_detector_save_results visualization).

(** X19. [run] deletes nothing when the stages succeed: it returns with the
    file system the stages left, working directory included.  When they
    raise, what the stages left outside the working directory is kept. *)
Theorem run_keeps_results_on_success (fs : gset (list string)) :
  match
    stages extract_video extract_audio extract_frames scenes_detect detect_faces
           track_faces video_tracks face_processor_save_results evaluate_network
           speaker_detector_save_results visualization fs
  with
  | (inr u, fs1) => the_run fs = (inr u, fs1)
  | (inl e, fs1) =>
      ∃ fs', run save_path extract_video extract_audio extract_frames scenes_detect
                 detect_faces track_faces video_tracks face_processor_save_results
                 evaluate_network speaker_detector_save_results visualization fs
             = (inl e, fs')
             ∧ ∀ p, p ∈ fs' ↔ p ∈ fs1 ∧ ¬ save_path `prefix_of` p
  end.
Proof.
  unfold run, try_except. destruct (stages _ _ _ _ _ _ _ _ _ _ _ fs) as [[e|u] fs1]; [|done].
  unfold Pipeline.bind. destruct (cleanup_cache_spec fs1) as (fs' & -> & H).
  exists fs'. done.
Qed.

End WorkingDirectory.
